(** * Log playback engine (ignition-transport, log/src/Playback.cc)

    A shallow embedding of the playback factory ([Playback]), of its topic
    selector, and of the replay session ([PlaybackHandle]) with its worker
    thread, followed by the properties of the playback specification that
    were checked against it. *)

From stdpp Require Import gmap strings list fin_maps fin_sets sorting.
From Stdlib Require Import ZArith Lia.

#[local] Set Warnings "-clear-no-such-hyp".

Local Open Scope Z_scope.

(** ** Collaborators: console, messages, the log and its descriptor *)

(** Console.hh: the three macros used by Playback.cc.  Only the level and the
    text are kept (the trailing newline is left out). *)
Inductive Diag :=
| LERR (text : string)
| LWRN (text : string)
| LDBG (text : string).

(** A recorded message: [Message::Topic], [Type], [TimeReceived] (a count of
    nanoseconds) and [Data]. *)
Record Message := mkMessage {
  Topic : string;
  Type_ : string;
  TimeReceived : Z;
  Data : string
}.

(** [Descriptor::NameToMap]: topic name -> (message type name -> row id). *)
Abbreviation NameToMap := (gmap string (gmap string Z)).

Record Descriptor := mkDescriptor {
  TopicsToMsgTypesToId : NameToMap
}.

(** The read view of an opened [Log].  The file is opened with
    [std::ios_base::in] and nothing in Playback.cc writes to it, so the
    [shared_ptr<Log>] held by the factory and by every handle is embedded as
    an immutable value. *)
Record Log := mkLog {
  Valid : bool;
  LogDescriptor : Descriptor;
  Rows : list Message
}.

(** [std::chrono::nanoseconds] and the time points of the steady clock keep
    their count in a signed 64-bit integer: the result of an addition or a
    subtraction, as the machine computes it. *)
Definition int64 (z : Z) : Z := (z + 2 ^ 63) mod 2 ^ 64 - 2 ^ 63.

Definition time_le (a b : Message) : Prop := TimeReceived a ≤ TimeReceived b.

#[global] Instance time_le_dec : RelDecision time_le.
Proof. intros a b. unfold time_le. apply _. Defined.

#[global] Instance time_le_trans : Transitive time_le.
Proof. intros a b c. unfold time_le. lia. Qed.

#[global] Instance time_le_total : Total time_le.
Proof. intros a b. unfold time_le. lia. Qed.

(** Modelled from the spec: [Log::QueryMessages] and [TopicList::Create] are
    not part of the sources at hand.  The batch holds the rows whose topic is
    in the list, by [time_received] ascending. *)
Definition QueryMessages (log : Log) (topics : gset string) : list Message :=
  merge_sort time_le (filter (λ m, Topic m ∈ topics) (Rows log)).

(** [std::regex] together with [std::regex_match(topic, re)], which holds
    when the whole of [topic] matches.  The pattern language is the standard
    library's; a regex is embedded as its full-match predicate. *)
Record regex := mkRegex {
  regex_match_fn : string → bool
}.

Definition regex_match (topic : string) (re : regex) : bool :=
  regex_match_fn re topic.

(** What a call leaves behind: its return value, the object it ran on, and
    the lines written to the console. *)
Record Outcome (S A : Type) := mkOutcome {
  ret : A;
  post : S;
  console : list Diag
}.
Arguments mkOutcome {S A} _ _ _.
Arguments ret {S A} _.
Arguments post {S A} _.
Arguments console {S A} _.

(** ** PlaybackHandle: a replay session and its worker thread *)

Module PlaybackHandle.

(** [ignition::transport::Node::Publisher].  [Advertised] is what
    [Node::Advertise(topic, type)] hands back; [NoPublisher] is the
    default-constructed publisher that [operator[]] puts into a map. *)
Inductive Publisher :=
| NoPublisher
| Advertised (topic type : string).

(** Where the playback thread stands in the lambda of [StartPlayback]. *)
Inductive WorkerPc :=
| PcNone                                        (* no thread yet *)
| PcStart (batch : list Message)                (* spawned, body not entered *)
| PcLoop (rest : list Message)                  (* head of the range-for *)
| PcWait (msg : Message) (rest : list Message)  (* in the timed wait *)
| PcPublish (msg : Message) (rest : list Message)
| PcSetFinished                                 (* before finished = true *)
| PcSetStop                                     (* before stop = true *)
| PcNotify                                      (* before notify_all *)
| PcDone.                                       (* thread function returned *)

(** The members of [PlaybackHandle::Implementation] that carry state, the
    locals of the thread's lambda, and what surrounds the handle: the steady
    clock, the messages handed to [PublishRaw] so far, and how many callers
    are blocked inside [Stop] (in [join]) and inside [WaitUntilFinished]. *)
Record Implementation := mkImpl {
  publishers : gmap string (gmap string Publisher);
  stop : bool;
  finished : bool;
  logFile : Log;
  (* playbackThread *)
  pc : WorkerPc;
  joined : bool;
  startTime : Z;
  firstMsgTime : Z;
  publishedFirstMessage : bool;
  (* surroundings *)
  clock : Z;
  emitted : list Message;
  joining : nat;
  waiting : nat
}.

Definition set_publishers v (h : Implementation) : Implementation :=
  mkImpl v (stop h) (finished h) (logFile h) (pc h) (joined h) (startTime h)
    (firstMsgTime h) (publishedFirstMessage h) (clock h) (emitted h)
    (joining h) (waiting h).

Definition set_stop v (h : Implementation) : Implementation :=
  mkImpl (publishers h) v (finished h) (logFile h) (pc h) (joined h)
    (startTime h) (firstMsgTime h) (publishedFirstMessage h) (clock h)
    (emitted h) (joining h) (waiting h).

Definition set_finished v (h : Implementation) : Implementation :=
  mkImpl (publishers h) (stop h) v (logFile h) (pc h) (joined h)
    (startTime h) (firstMsgTime h) (publishedFirstMessage h) (clock h)
    (emitted h) (joining h) (waiting h).

Definition set_pc v (h : Implementation) : Implementation :=
  mkImpl (publishers h) (stop h) (finished h) (logFile h) v (joined h)
    (startTime h) (firstMsgTime h) (publishedFirstMessage h) (clock h)
    (emitted h) (joining h) (waiting h).

Definition set_joined v (h : Implementation) : Implementation :=
  mkImpl (publishers h) (stop h) (finished h) (logFile h) (pc h) v
    (startTime h) (firstMsgTime h) (publishedFirstMessage h) (clock h)
    (emitted h) (joining h) (waiting h).

Definition set_startTime v (h : Implementation) : Implementation :=
  mkImpl (publishers h) (stop h) (finished h) (logFile h) (pc h) (joined h)
    v (firstMsgTime h) (publishedFirstMessage h) (clock h) (emitted h)
    (joining h) (waiting h).

Definition set_firstMsgTime v (h : Implementation) : Implementation :=
  mkImpl (publishers h) (stop h) (finished h) (logFile h) (pc h) (joined h)
    (startTime h) v (publishedFirstMessage h) (clock h) (emitted h)
    (joining h) (waiting h).

Definition set_publishedFirstMessage v (h : Implementation) : Implementation :=
  mkImpl (publishers h) (stop h) (finished h) (logFile h) (pc h) (joined h)
    (startTime h) (firstMsgTime h) v (clock h) (emitted h) (joining h)
    (waiting h).

Definition set_clock v (h : Implementation) : Implementation :=
  mkImpl (publishers h) (stop h) (finished h) (logFile h) (pc h) (joined h)
    (startTime h) (firstMsgTime h) (publishedFirstMessage h) v (emitted h)
    (joining h) (waiting h).

Definition set_emitted v (h : Implementation) : Implementation :=
  mkImpl (publishers h) (stop h) (finished h) (logFile h) (pc h) (joined h)
    (startTime h) (firstMsgTime h) (publishedFirstMessage h) (clock h) v
    (joining h) (waiting h).

Definition set_joining v (h : Implementation) : Implementation :=
  mkImpl (publishers h) (stop h) (finished h) (logFile h) (pc h) (joined h)
    (startTime h) (firstMsgTime h) (publishedFirstMessage h) (clock h)
    (emitted h) v (waiting h).

Definition set_waiting v (h : Implementation) : Implementation :=
  mkImpl (publishers h) (stop h) (finished h) (logFile h) (pc h) (joined h)
    (startTime h) (firstMsgTime h) (publishedFirstMessage h) (clock h)
    (emitted h) (joining h) v.

(** [CreatePublisher(_topic, _type)]. *)
Definition CreatePublisher (_topic _type : string) (h : Implementation)
  : Implementation :=
  (* publishers.find(_topic); an empty inner map is created when absent *)
  let h1 :=
    match publishers h !! _topic with
    | None => set_publishers (<[_topic := ∅]> (publishers h)) h
    | Some _ => h
    end in
  let second := default ∅ (publishers h1 !! _topic) in
  match second !! _type with
  | Some _ => h1   (* a publisher for this pair exists already *)
  | None =>
      set_publishers
        (<[_topic := <[_type := Advertised _topic _type]> second]>
           (publishers h1)) h1
  end.

(** [AddTopic(_topic)].  The iterator returned by [allTopics.find(_topic)]
    is dereferenced without a test against [end()]: [None] stands for that
    dereference of the end iterator. *)
Definition AddTopic (_topic : string) (h : Implementation)
  : option Implementation :=
  let allTopics := TopicsToMsgTypesToId (LogDescriptor (logFile h)) in
  match allTopics !! _topic with
  | None => None
  | Some types =>
      Some (foldl (λ acc typeEntry, CreatePublisher _topic typeEntry.1 acc)
              h (map_to_list types))
  end.

(** [StartPlayback(_batch)]: clears [stop] and spawns the thread, which owns
    the batch from then on. *)
Definition StartPlayback (_batch : list Message) (h : Implementation)
  : Implementation :=
  set_pc (PcStart _batch) (set_stop false h).

(** The member initialisers of the constructor: [stop(true)],
    [finished(false)], [logFile(_logFile)]; no publisher, no thread. *)
Definition Init (_logFile : Log) : Implementation :=
  mkImpl ∅ true false _logFile PcNone false 0 0 false 0 [] 0%nat 0%nat.

(** What [CreatePublisher(_topic, _type)] writes to the console: its one
    line comes after the early return, so it is written only when a
    publisher is created. *)
Definition CreatePublisher_console (_topic _type : string)
    (h : Implementation) : list Diag :=
  let second := default ∅ (publishers h !! _topic) in
  match second !! _type with
  | Some _ => []
  | None => [LDBG ("Creating publisher for " +:+ _topic +:+ " " +:+ _type)]
  end.

(** The body of the loop of [AddTopic(_topic)], on the handle and on what
    has been written so far. *)
Definition AddTopic_console_body (_topic : string)
    (acc : Implementation * list Diag) (typeEntry : string * Z)
  : Implementation * list Diag :=
  let '(h, out) := acc in
  let type := typeEntry.1 in
  (CreatePublisher _topic type h,
   out ++ LDBG ("Playing back [" +:+ _topic +:+ "] : [" +:+ type +:+ "]")
       :: CreatePublisher_console _topic type h).

(** What [AddTopic(_topic)] writes to the console. *)
Definition AddTopic_console (_topic : string) (h : Implementation)
  : list Diag :=
  let allTopics := TopicsToMsgTypesToId (LogDescriptor (logFile h)) in
  match allTopics !! _topic with
  | None => []
  | Some types =>
      (foldl (AddTopic_console_body _topic) (h, []) (map_to_list types)).2
  end.

(** What the loop [for (topic : _topics) this->AddTopic(topic)] of the
    constructor writes to the console, from the handle [h] on. *)
Fixpoint construction_console (_topics : list string) (h : Implementation)
  : list Diag :=
  match _topics with
  | [] => []
  | topic :: _topics' =>
      AddTopic_console topic h ++
      match AddTopic topic h with
      | Some h' => construction_console _topics' h'
      | None => []
      end
  end.

(** The constructor: member initialisers ([stop(true)], [finished(false)]),
    one [AddTopic] per topic of the snapshot, the pause after advertising,
    the query, the warning on an empty batch, and [StartPlayback].  The clock
    of the session counts from the construction.  The console gets the lines
    of the calls of [AddTopic], then the warning. *)
Definition New (_logFile : Log) (_topics : gset string)
    (_waitAfterAdvertising : Z) : option (Implementation * list Diag) :=
  let h0 := Init _logFile in
  h1 ← foldl (λ acc topic, acc ≫= AddTopic topic) (Some h0)
         (elements _topics);
  let h2 := set_clock (clock h1 + _waitAfterAdvertising) h1 in
  let batch := QueryMessages (logFile h2) _topics in
  let warn :=
    match batch with
    | [] => [LWRN "There are no messages to play"]
    | _ => []
    end in
  Some (StartPlayback batch h2,
        construction_console (elements _topics) h0 ++ warn).

(** [publishers[topic][type]] as [operator[]] evaluates it: entries that are
    missing are created, the inner one with a default publisher. *)
Definition index_publishers (topic type : string)
    (pubs : gmap string (gmap string Publisher))
  : gmap string (gmap string Publisher) :=
  let second := default ∅ (pubs !! topic) in
  match second !! type with
  | Some _ => <[topic := second]> pubs
  | None => <[topic := <[type := NoPublisher]> second]> pubs
  end.

(** The predicate of the timed wait: [target <= now || this->stop], with
    [target = msg.TimeReceived() - firstMsgTime] and [now] the steady clock
    less [startTime], both computed in 64-bit nanoseconds. *)
Definition FinishedWaiting (msg : Message) (h : Implementation) : bool :=
  let target := int64 (TimeReceived msg - firstMsgTime h) in
  let now := int64 (clock h - startTime h) in
  (target <=? now) || stop h.

(** The instant of the steady clock at which
    [wait_for(tempLock, target - now, FinishedWaiting)] gives up: the clock
    at the call plus [target - now], again in 64-bit nanoseconds.  It is
    written here on the current clock; it does not depend on it
    (see [wait_deadline_eq]). *)
Definition wait_deadline (msg : Message) (h : Implementation) : Z :=
  let target := int64 (TimeReceived msg - firstMsgTime h) in
  let now := int64 (clock h - startTime h) in
  int64 (clock h + int64 (target - now)).

(** [wait_for] has timed out. *)
Definition wait_timed_out (msg : Message) (h : Implementation) : bool :=
  wait_deadline msg h <=? clock h.

(** The timed wait before [msg] is over: the predicate has been found true
    (by the first test [if (!FinishedWaiting())] or inside [wait_for]), or
    [wait_for] has timed out.  In the second case [wait_for] returns the
    value of the predicate, which the caller does not look at. *)
Definition wait_is_over (msg : Message) (h : Implementation) : bool :=
  FinishedWaiting msg h || wait_timed_out msg h.

(** One atomic action of the playback thread.  [PcWait] stands for the whole
    of the timed wait: the first test, the tests inside [wait_for] and the
    thread blocked on [stopConditionVariable].  The thread goes on to the
    publication when it finds the wait over, and stays where it is
    otherwise.  A blocked thread takes this step when it is woken (by
    [notify_all], by the deadline, or spuriously); nothing here says how soon
    that is: [Stop] notifies without holding a mutex that the worker holds,
    so a notification that comes between a test and the block is lost and
    the thread sleeps on to its deadline.  The thread writes the debug line
    [publishing] before each call of [PublishRaw], one line for each element
    of [emitted]; these lines are not kept apart.  The thread is the only one
    to take [logFileMutex], which is left out. *)
Definition worker_step (h : Implementation) : Implementation :=
  match pc h with
  | PcNone => h
  | PcStart batch =>
      set_pc (PcLoop batch)
        (set_startTime (clock h) (set_publishedFirstMessage false h))
  | PcLoop [] => set_pc PcSetFinished h
  | PcLoop (msg :: rest) =>
      if stop h then set_pc PcSetFinished h
      else if publishedFirstMessage h then set_pc (PcWait msg rest) h
      else set_pc (PcPublish msg rest)
             (set_firstMsgTime (TimeReceived msg)
                (set_publishedFirstMessage true h))
  | PcWait msg rest =>
      if wait_is_over msg h then set_pc (PcPublish msg rest) h else h
  | PcPublish msg rest =>
      set_pc (PcLoop rest)
        (set_emitted (emitted h ++ [msg])
           (set_publishers
              (index_publishers (Topic msg) (Type_ msg) (publishers h)) h))
  | PcSetFinished => set_pc PcSetStop (set_finished true h)
  | PcSetStop => set_pc PcNotify (set_stop true h)
  | PcNotify => set_pc PcDone h
  | PcDone => h
  end.

(** [playbackThread.joinable()]. *)
Definition joinable (h : Implementation) : bool :=
  match pc h with
  | PcNone => false
  | _ => negb (joined h)
  end.

(** What can happen to a session: the worker takes a step, time passes, a
    caller enters [Stop], a [join] returns, a caller enters
    [WaitUntilFinished], a caller blocked there finds its predicate true. *)
Inductive Event :=
| EvWorker
| EvTick (d : Z)
| EvStop
| EvJoin
| EvWaitUntilFinished
| EvWake.

(** [Stop()] up to the call of [join]. *)
Definition Stop_enter (h : Implementation) : Implementation :=
  if negb (Valid (logFile h)) then h
  else
    let h1 := set_stop true h in
    if joinable h1 then set_joining (S (joining h1)) h1 else h1.

(** [WaitUntilFinished()] up to the wait on the condition variable. *)
Definition WaitUntilFinished_enter (h : Implementation) : Implementation :=
  if Valid (logFile h) && negb (stop h)
  then set_waiting (S (waiting h)) h
  else h.

(** [None] when the event cannot happen in [h]: the steady clock does not
    run backwards, [join] returns only once the thread function has
    returned, and the wait on [waitConditionVariable] ends only when
    [finished] is found true. *)
Definition step (e : Event) (h : Implementation) : option Implementation :=
  match e with
  | EvWorker => Some (worker_step h)
  | EvTick d => if 0 <=? d then Some (set_clock (clock h + d) h) else None
  | EvStop => Some (Stop_enter h)
  | EvJoin =>
      match joining h, pc h with
      | S n, PcDone => Some (set_joining n (set_joined true h))
      | _, _ => None
      end
  | EvWaitUntilFinished => Some (WaitUntilFinished_enter h)
  | EvWake =>
      match waiting h with
      | S n => if finished h then Some (set_waiting n h) else None
      | O => None
      end
  end.

(** Whether [e], happening in [h], is a return of [WaitUntilFinished]. *)
Definition WaitUntilFinished_returns (e : Event) (h : Implementation) : bool :=
  match e with
  | EvWaitUntilFinished => negb (Valid (logFile h) && negb (stop h))
  | EvWake =>
      match waiting h with
      | S _ => finished h
      | O => false
      end
  | _ => false
  end.

(** Whether [e], happening in [h], is a return of [Stop]. *)
Definition Stop_returns (e : Event) (h : Implementation) : bool :=
  match e with
  | EvStop => negb (Valid (logFile h)) || negb (joinable h)
  | EvJoin =>
      match joining h, pc h with
      | S _, PcDone => true
      | _, _ => false
      end
  | _ => false
  end.

Fixpoint run (sched : list Event) (h : Implementation)
  : option Implementation :=
  match sched with
  | [] => Some h
  | e :: sched' =>
      match step e h with
      | Some h' => run sched' h'
      | None => None
      end
  end.

(** [PlaybackHandle::Finished()]. *)
Definition Finished (h : Implementation) : bool := finished h.

End PlaybackHandle.

(** ** The live handles

    A [PlaybackHandlePtr] is a [shared_ptr]; it is embedded as an address
    into the table of handles that still have an owner.  Addresses are never
    handed out twice, so a [weak_ptr] is an address too: [lock()] finds the
    handle if and only if it has not been destroyed. *)
Record Heap := mkHeap {
  handles : gmap nat PlaybackHandle.Implementation;
  nextHandle : nat
}.

Definition lock (wp : option nat) (heap : Heap)
  : option PlaybackHandle.Implementation :=
  wp ≫= (λ a, handles heap !! a).

(** The last owner lets go of the handle at [a]: the destructor has stopped
    and joined the worker, and the object is gone. *)
Definition release (a : nat) (heap : Heap) : Heap :=
  mkHeap (delete a (handles heap)) (nextHandle heap).

(** ** Playback: the factory and its topic selector *)

Module Playback.

Record Implementation := mkImpl {
  logFile : Log;
  topicNames : gset string;
  addTopicWasUsed : bool;
  lastHandle : option nat
}.

Definition set_topicNames v (p : Implementation) : Implementation :=
  mkImpl (logFile p) v (addTopicWasUsed p) (lastHandle p).

Definition set_addTopicWasUsed v (p : Implementation) : Implementation :=
  mkImpl (logFile p) (topicNames p) v (lastHandle p).

Definition set_lastHandle v (p : Implementation) : Implementation :=
  mkImpl (logFile p) (topicNames p) (addTopicWasUsed p) v.

(** The constructor, [_log] being what [Log::Open(_file, in)] produced. *)
Definition New (_log : Log) : Implementation :=
  mkImpl _log ∅ false None.

(** [for (const auto &entry : allTopics) set.insert(entry.first)]. *)
Definition insert_all (allTopics : NameToMap) (set : gset string)
  : gset string :=
  foldl (λ acc entry, {[entry.1]} ∪ acc) set (map_to_list allTopics).

(** [DefaultToAllTopics()].  The descriptor is used without a look at
    [Valid()], as in the source. *)
Definition DefaultToAllTopics (p : Implementation) : Implementation :=
  if negb (addTopicWasUsed p) then
    let allTopics := TopicsToMsgTypesToId (LogDescriptor (logFile p)) in
    set_addTopicWasUsed true
      (set_topicNames (insert_all allTopics (topicNames p)) p)
  else p.

(** [bool AddTopic(const std::string &)]. *)
Definition AddTopic (_topic : string) (p : Implementation)
  : Outcome Implementation bool :=
  let p1 := set_addTopicWasUsed true p in
  if negb (Valid (logFile p1)) then
    mkOutcome false p1 [LERR "Failed to open log file"]
  else
    let allTopics := TopicsToMsgTypesToId (LogDescriptor (logFile p1)) in
    match allTopics !! _topic with
    | None =>
        mkOutcome false p1 [LWRN ("Topic [" +:+ _topic +:+ "] is not in the log")]
    | Some _ =>
        mkOutcome true (set_topicNames ({[_topic]} ∪ topicNames p1) p1) []
    end.

(** The body of the loop of [AddTopic(const std::regex &)], on the selector
    set and the counter. *)
Definition AddTopicRegex_body (_topic : regex)
    (acc : gset string * Z) (topicEntry : string * gmap string Z)
  : gset string * Z :=
  let '(names, numMatches) := acc in
  let topic := topicEntry.1 in
  if negb (regex_match topic _topic) then (names, numMatches)   (* continue *)
  else ({[topic]} ∪ names, numMatches + 1).

(** [int64_t AddTopic(const std::regex &)].  [numMatches] counts entries of
    a [std::map], of which there are fewer than 2^63: the counter is an
    integer that does not overflow. *)
Definition AddTopicRegex (_topic : regex) (p : Implementation)
  : Outcome Implementation Z :=
  let p1 := set_addTopicWasUsed true p in
  if negb (Valid (logFile p1)) then
    mkOutcome (-1) p1 [LERR "Failed to open log file"]
  else
    let allTopics := TopicsToMsgTypesToId (LogDescriptor (logFile p1)) in
    let '(names, numMatches) :=
      foldl (AddTopicRegex_body _topic) (topicNames p1, 0)
        (map_to_list allTopics) in
    mkOutcome numMatches (set_topicNames names p1) [].

(** [bool RemoveTopic(const std::string &)]. *)
Definition RemoveTopic (_topic : string) (p : Implementation)
  : Outcome Implementation bool :=
  let p1 := DefaultToAllTopics p in
  mkOutcome (bool_decide (_topic ∈ topicNames p1))
    (set_topicNames (topicNames p1 ∖ {[_topic]}) p1) [].

(** The body of the loop of [RemoveTopic(const std::regex &)]: the element
    under the iterator is erased and counted when it matches. *)
Definition RemoveTopicRegex_body (_topic : regex)
    (acc : gset string * Z) (it : string) : gset string * Z :=
  let '(names, count) := acc in
  if regex_match it _topic then (names ∖ {[it]}, count + 1)
  else (names, count).

(** [int64_t RemoveTopic(const std::regex &)].  The walk visits every
    element of the set once. *)
Definition RemoveTopicRegex (_topic : regex) (p : Implementation)
  : Outcome Implementation Z :=
  let p1 := DefaultToAllTopics p in
  let '(names, count) :=
    foldl (RemoveTopicRegex_body _topic) (topicNames p1, 0)
      (elements (topicNames p1)) in
  mkOutcome count (set_topicNames names p1) [].

(** [Valid()]. *)
Definition IsValid (p : Implementation) : bool := Valid (logFile p).

(** The local [topics] of [Start]: the snapshot handed to the new handle. *)
Definition Start_topics (p : Implementation) : gset string * list Diag :=
  if negb (addTopicWasUsed p) then
    let allTopics := TopicsToMsgTypesToId (LogDescriptor (logFile p)) in
    (insert_all allTopics ∅, [LDBG "No topics added, defaulting to all topics"])
  else (topicNames p, []).

(** The test on [lastHandle] that [Start] makes when sqlite3 is known to be
    single-threaded. *)
Definition last_handle_busy (p : Implementation) (heap : Heap) : bool :=
  match lock (lastHandle p) heap with
  | Some last => negb (PlaybackHandle.Finished last)
  | None => false
  end.

(** [PlaybackHandlePtr Start(_waitAfterAdvertising) const].
    [kSqlite3Threadsafe] is [sqlite3_threadsafe() != 0], fixed when the
    library is loaded.  The result is [None] only if the construction of the
    handle dereferences an end iterator. *)
Definition Start (kSqlite3Threadsafe : bool) (_waitAfterAdvertising : Z)
    (p : Implementation) (heap : Heap)
  : option (Outcome (Implementation * Heap) (option nat)) :=
  if negb (Valid (logFile p)) then
    Some (mkOutcome None (p, heap)
            [LERR "Could not start: Failed to open log file"])
  else if negb kSqlite3Threadsafe && last_handle_busy p heap then
    Some (mkOutcome None (p, heap)
            [LWRN "You have linked to a single-threaded sqlite3. We can only spawn one PlaybackHandle at a time"])
  else
    let '(topics, dbg) := Start_topics p in
    '(h, warn) ← PlaybackHandle.New (logFile p) topics _waitAfterAdvertising;
    let newHandle := nextHandle heap in
    let heap' := mkHeap (<[newHandle := h]> (handles heap)) (S newHandle) in
    let p' :=
      if negb kSqlite3Threadsafe then set_lastHandle (Some newHandle) p
      else p in
    Some (mkOutcome (Some newHandle) (p', heap') (dbg ++ warn)).

(** The mutators of the selector. *)
Inductive SelectorOp :=
| OpAddTopic (_topic : string)
| OpAddTopicRegex (_topic : regex)
| OpRemoveTopic (_topic : string)
| OpRemoveTopicRegex (_topic : regex)
| OpDefaultToAllTopics.

Definition apply_op (op : SelectorOp) (p : Implementation) : Implementation :=
  match op with
  | OpAddTopic t => post (AddTopic t p)
  | OpAddTopicRegex re => post (AddTopicRegex re p)
  | OpRemoveTopic t => post (RemoveTopic t p)
  | OpRemoveTopicRegex re => post (RemoveTopicRegex re p)
  | OpDefaultToAllTopics => DefaultToAllTopics p
  end.

Definition apply_ops (ops : list SelectorOp) (p : Implementation)
  : Implementation :=
  foldl (λ acc op, apply_op op acc) p ops.

(** Whether [op] is a call of [AddTopic], in either overload. *)
Definition is_add_topic (op : SelectorOp) : bool :=
  match op with
  | OpAddTopic _ | OpAddTopicRegex _ => true
  | _ => false
  end.

End Playback.

(** ** Vocabulary of the properties *)

(** The topic names of the log's descriptor. *)
Definition descriptor_topics (log : Log) : gset string :=
  dom (TopicsToMsgTypesToId (LogDescriptor log)).

(** The descriptor's topic names that the pattern matches as a whole. *)
Definition matching (re : regex) (m : NameToMap) : gset string :=
  filter (λ t, regex_match t re = true) (dom m).

(** ** Logs and patterns of the scenarios *)

(** A log that failed to open. *)
Definition unopened_log : Log := mkLog false (mkDescriptor ∅) [].

(** An opened log with the topics [/foo] and [/bar], one type each. *)
Definition foo_bar_log : Log :=
  mkLog true
    (mkDescriptor
       (<["/foo" := {[".msg.foo" := 1]}]> (<["/bar" := {[".msg.bar" := 2]}]> ∅)))
    [].

(** The pattern [.*]. *)
Definition any_topic : regex := mkRegex (λ _, true).

(** Whether [op] is a call of [RemoveTopic], in either overload. *)
Definition is_remove_topic (op : Playback.SelectorOp) : bool :=
  match op with
  | Playback.OpRemoveTopic _ | Playback.OpRemoveTopicRegex _ => true
  | _ => false
  end.

(** Scenario S2: three messages on [/foo], received at 0 ms, 100 ms and
    250 ms (in nanoseconds). *)
Definition foo_at (t : Z) : Message := mkMessage "/foo" ".msg.foo" t "".

Definition S2_log : Log :=
  mkLog true (mkDescriptor {["/foo" := {[".msg.foo" := 1]}]})
    [foo_at 0; foo_at 100000000; foo_at 250000000].

(** ** Sessions and the whole program *)

(** The session that [Start] builds from a snapshot, after the events of
    [sched] have happened to it. *)
Definition session_of (log : Log) (topics : gset string) (wait : Z)
    (sched : list PlaybackHandle.Event) : option PlaybackHandle.Implementation :=
  '(h, _) ← PlaybackHandle.New log topics wait;
  PlaybackHandle.run sched h.

(** A handle as [Start] issues it: built by the constructor on a valid log. *)
Definition issued (h : PlaybackHandle.Implementation) : Prop :=
  ∃ log topics wait diag,
    Valid log = true ∧ PlaybackHandle.New log topics wait = Some (h, diag).

(** Scenario S3: the replay of S2 with a caller blocked in
    [WaitUntilFinished] from the beginning and [Stop] called at 120 ms, when
    the worker is in the timed wait before the third message. *)
Definition S3_schedule : list PlaybackHandle.Event :=
  let w := PlaybackHandle.EvWorker in
  [ PlaybackHandle.EvWaitUntilFinished;
    w;                                   (* startTime is taken *)
    w; w;                                (* first message, at once *)
    w;                                   (* second message: into the wait *)
    PlaybackHandle.EvTick 100000000;
    w; w;                                (* second message, at 100 ms *)
    w;                                   (* third message: into the wait *)
    PlaybackHandle.EvTick 20000000;
    PlaybackHandle.EvStop;               (* Stop() at 120 ms *)
    w;                                   (* the wait ends: stop is set *)
    w;                                   (* what follows the wait *)
    w;                                   (* head of the loop: exhausted *)
    w; w; w;                             (* finished, stop, notify_all *)
    PlaybackHandle.EvJoin;               (* Stop() returns *)
    PlaybackHandle.EvWake ].             (* WaitUntilFinished() returns *)

(** The factory, the live handles, and what the calls of [Start] returned so
    far (latest first). *)
Record System := mkSystem {
  factory : Playback.Implementation;
  heap : Heap;
  started : list (option nat)
}.

Inductive Action :=
| ActSelect (op : Playback.SelectorOp)          (* a mutator of the selector *)
| ActStart (wait : Z)                           (* factory.Start(wait) *)
| ActHandle (a : nat) (e : PlaybackHandle.Event) (* an event of the session at a *)
| ActDrop (a : nat).                            (* the handle at a is dropped *)

(** [None] when the action cannot happen: an event of a handle that is gone
    or that cannot happen in it, or a construction that dereferences an end
    iterator. *)
Definition act (kSqlite3Threadsafe : bool) (x : Action) (s : System)
  : option System :=
  match x with
  | ActSelect op =>
      Some (mkSystem (Playback.apply_op op (factory s)) (heap s) (started s))
  | ActStart wait =>
      o ← Playback.Start kSqlite3Threadsafe wait (factory s) (heap s);
      Some (mkSystem (post o).1 (post o).2 (ret o :: started s))
  | ActHandle a e =>
      h ← handles (heap s) !! a;
      h' ← PlaybackHandle.step e h;
      Some (mkSystem (factory s)
              (mkHeap (<[a := h']> (handles (heap s))) (nextHandle (heap s)))
              (started s))
  | ActDrop a => Some (mkSystem (factory s) (release a (heap s)) (started s))
  end.

Fixpoint act_all (kSqlite3Threadsafe : bool) (acts : list Action) (s : System)
  : option System :=
  match acts with
  | [] => Some s
  | x :: acts' =>
      match act kSqlite3Threadsafe x s with
      | Some s' => act_all kSqlite3Threadsafe acts' s'
      | None => None
      end
  end.

(** A program that has just opened [log]. *)
Definition boot (log : Log) : System :=
  mkSystem (Playback.New log) (mkHeap ∅ 0) [].

(** The handle that the latest successful [Start] issued. *)
Fixpoint most_recent (results : list (option nat)) : option nat :=
  match results with
  | [] => None
  | Some a :: _ => Some a
  | None :: results' => most_recent results'
  end.

(** The events of the session at [a] among [acts]. *)
Fixpoint events_at (a : nat) (acts : list Action) : list PlaybackHandle.Event :=
  match acts with
  | [] => []
  | ActHandle b e :: acts' =>
      if decide (a = b) then e :: events_at a acts' else events_at a acts'
  | _ :: acts' => events_at a acts'
  end.

(** The action drops the handle at [a]. *)
Definition is_drop_of (a : nat) (x : Action) : bool :=
  match x with
  | ActDrop b => bool_decide (a = b)
  | _ => false
  end.

(** The handle at [a] keeps an owner throughout [acts]. *)
Definition alive_through (a : nat) (acts : list Action) : bool :=
  forallb (λ x, negb (is_drop_of a x)) acts.

(** Where the worker is once [finished] has been set. *)
Definition past_loop (pc : PlaybackHandle.WorkerPc) : bool :=
  match pc with
  | PlaybackHandle.PcSetStop | PlaybackHandle.PcNotify | PlaybackHandle.PcDone => true
  | _ => false
  end.

(** How far the worker has come through [batch]: what it has handed to
    [PublishRaw], followed by what lies ahead of it, is the batch. *)
Definition trail (batch : list Message) (h : PlaybackHandle.Implementation)
  : Prop :=
  match PlaybackHandle.pc h with
  | PlaybackHandle.PcNone => False
  | PlaybackHandle.PcStart b => b = batch ∧ PlaybackHandle.emitted h = []
  | PlaybackHandle.PcLoop rest => PlaybackHandle.emitted h ++ rest = batch
  | PlaybackHandle.PcWait msg rest | PlaybackHandle.PcPublish msg rest =>
      PlaybackHandle.emitted h ++ msg :: rest = batch
  | _ => PlaybackHandle.emitted h `prefix_of` batch
  end.

(** What holds of a session throughout its life. *)
Definition session_inv (h : PlaybackHandle.Implementation) : Prop :=
  Valid (PlaybackHandle.logFile h) = true ∧
  PlaybackHandle.pc h ≠ PlaybackHandle.PcNone ∧
  PlaybackHandle.finished h = past_loop (PlaybackHandle.pc h) ∧
  (PlaybackHandle.joined h = true →
   PlaybackHandle.pc h = PlaybackHandle.PcDone) ∧
  (PlaybackHandle.stop h = true → PlaybackHandle.finished h = false →
   (0 < PlaybackHandle.joining h)%nat).

(** What the construction of the session of S2 writes to the console. *)
Definition S2_construction_console : list Diag :=
  [LDBG "Playing back [/foo] : [.msg.foo]";
   LDBG "Creating publisher for /foo .msg.foo"].

(** The session that [Start] issues for S2 with no pause after advertising. *)
Definition S2_session : PlaybackHandle.Implementation :=
  PlaybackHandle.mkImpl
    {["/foo" := {[".msg.foo" := PlaybackHandle.Advertised "/foo" ".msg.foo"]}]}
    false false S2_log (PlaybackHandle.PcStart (Rows S2_log)) false 0 0 false
    0 [] 0%nat 0%nat.

(** The session of S3 once the worker has been joined, with [waiters]
    callers still inside [WaitUntilFinished]. *)
Definition S3_session (waiters : nat) : PlaybackHandle.Implementation :=
  PlaybackHandle.mkImpl
    {["/foo" := {[".msg.foo" := PlaybackHandle.Advertised "/foo" ".msg.foo"]}]}
    true true S2_log PlaybackHandle.PcDone true 0 0 true 120000000
    (Rows S2_log) 0%nat waiters.

(** What holds of a program that opened [log], whatever it did since. *)
Definition system_inv (log : Log) (s : System) : Prop :=
  Playback.logFile (factory s) = log ∧
  Playback.topicNames (factory s) ⊆ descriptor_topics log ∧
  Playback.lastHandle (factory s) = most_recent (started s) ∧
  (∀ a, is_Some (handles (heap s) !! a) → (a < nextHandle (heap s))%nat) ∧
  (∀ a, most_recent (started s) = Some a →
        (a < nextHandle (heap s))%nat ∧ Valid log = true).

(** The warning of [Start] when it refuses. *)
Definition one_handle_warning : list Diag :=
  [LWRN "You have linked to a single-threaded sqlite3. We can only spawn one PlaybackHandle at a time"].

(** Scenario S6 on the log of S2, with a single-threaded sqlite3: after the
    first [Start], and after a second [Start] and the drop of the handle. *)
Definition S6_one_live : System :=
  mkSystem (Playback.mkImpl S2_log ∅ false (Some 0%nat))
    (mkHeap {[0%nat := S2_session]} 1) [Some 0%nat].

Definition S6_dropped : System :=
  mkSystem (Playback.mkImpl S2_log ∅ false (Some 0%nat))
    (mkHeap ∅ 1) [None; Some 0%nat].

(** The selector is changed twice while the session at 0 is running, and
    is left empty. *)
Definition mutations_while_running : list Action :=
  [ActHandle 0 PlaybackHandle.EvWorker;
   ActSelect (Playback.OpAddTopicRegex any_topic);
   ActHandle 0 PlaybackHandle.EvWorker;
   ActSelect (Playback.OpRemoveTopic "/foo");
   ActHandle 0 PlaybackHandle.EvWorker].

(** The session of S3 right after [Stop] has set the flag: the worker is in
    the timed wait before the third message. *)
Definition S3_stopped_in_wait : PlaybackHandle.Implementation :=
  PlaybackHandle.mkImpl
    {["/foo" := {[".msg.foo" := PlaybackHandle.Advertised "/foo" ".msg.foo"]}]}
    true false S2_log (PlaybackHandle.PcWait (foo_at 250000000) []) false 0 0
    true 120000000 [foo_at 0; foo_at 100000000] 1%nat 1%nat.


(** ** Vocabulary of the further properties *)

(** What the selector stands for: the stored set once [addTopicWasUsed] is
    true, and before that every topic of the descriptor (together with
    whatever the set holds). *)
Definition selection (p : Playback.Implementation) : gset string :=
  if Playback.addTopicWasUsed p then Playback.topicNames p
  else descriptor_topics (Playback.logFile p) ∪ Playback.topicNames p.

(** The warning of the handle's constructor on an empty batch. *)
Definition no_messages_warning : list Diag :=
  [LWRN "There are no messages to play"].

(** The error of [Start] on a log that is not valid. *)
Definition could_not_start : list Diag :=
  [LERR "Could not start: Failed to open log file"].

(** What holds of the factory and of the table of handles in either
    configuration of sqlite3. *)
Definition factory_inv (log : Log) (s : System) : Prop :=
  Playback.logFile (factory s) = log ∧
  Playback.topicNames (factory s) ⊆ descriptor_topics log ∧
  (∀ a, is_Some (handles (heap s) !! a) → (a < nextHandle (heap s))%nat).

(** Every live handle keeps the invariant of a session, and every live
    handle but the one issued last is finished. *)
Definition handles_inv (s : System) : Prop :=
  ∀ a h, handles (heap s) !! a = Some h →
         session_inv h ∧
         (most_recent (started s) ≠ Some a →
          PlaybackHandle.finished h = true).

(** [publishers.find(topic)] followed by [find(type)] in what it finds:
    the publisher for the pair, nothing being created. *)
Definition publisher_at
    (pubs : gmap string (gmap string PlaybackHandle.Publisher))
    (topic type : string) : option PlaybackHandle.Publisher :=
  pubs !! topic ≫= (λ second, second !! type).

(** The descriptor records [type] among the message types of [topic]. *)
Definition has_type (log : Log) (topic type : string) : Prop :=
  ∃ types, TopicsToMsgTypesToId (LogDescriptor log) !! topic = Some types ∧
           is_Some (types !! type).

(** [pubs'] is [pubs] with a publisher advertised for each pair of [pairs]
    that had none, and nothing else changed. *)
Definition advertises
    (pubs pubs' : gmap string (gmap string PlaybackHandle.Publisher))
    (pairs : string → string → Prop) : Prop :=
  ∀ topic type x,
    publisher_at pubs' topic type = Some x ↔
    publisher_at pubs topic type = Some x ∨
    (publisher_at pubs topic type = None ∧ pairs topic type ∧
     x = PlaybackHandle.Advertised topic type).

(** Every row of the log has its type recorded in the descriptor under its
    topic. *)
Definition rows_typed (log : Log) : Prop :=
  ∀ m, m ∈ Rows log → has_type log (Topic m) (Type_ m).

(** The worker stands between the head of the loop and the publication of
    the message it has taken from the batch. *)
Definition committed (pc : PlaybackHandle.WorkerPc) : bool :=
  match pc with
  | PlaybackHandle.PcWait _ _ | PlaybackHandle.PcPublish _ _ => true
  | _ => false
  end.

(** Whether [e] is a call of [Stop]. *)
Definition is_stop (e : PlaybackHandle.Event) : bool :=
  match e with
  | PlaybackHandle.EvStop => true
  | _ => false
  end.

(** What holds of a session that nobody stops. *)
Definition unstopped (batch : list Message) (h : PlaybackHandle.Implementation)
  : Prop :=
  match PlaybackHandle.pc h with
  | PlaybackHandle.PcNone => False
  | PlaybackHandle.PcStart b =>
      b = batch ∧ PlaybackHandle.emitted h = [] ∧ PlaybackHandle.stop h = false
  | PlaybackHandle.PcLoop rest =>
      PlaybackHandle.emitted h ++ rest = batch ∧ PlaybackHandle.stop h = false
  | PlaybackHandle.PcWait msg rest | PlaybackHandle.PcPublish msg rest =>
      PlaybackHandle.emitted h ++ msg :: rest = batch ∧
      PlaybackHandle.stop h = false
  | PlaybackHandle.PcSetFinished | PlaybackHandle.PcSetStop =>
      PlaybackHandle.emitted h = batch ∧ PlaybackHandle.stop h = false
  | PlaybackHandle.PcNotify | PlaybackHandle.PcDone =>
      PlaybackHandle.emitted h = batch
  end.

(** How many steps the worker has to its end once [stop] is set. *)
Definition steps_to_end (pc : PlaybackHandle.WorkerPc) : nat :=
  match pc with
  | PlaybackHandle.PcNone => 0
  | PlaybackHandle.PcStart _ => 5
  | PlaybackHandle.PcLoop _ => 4
  | PlaybackHandle.PcWait _ _ => 6
  | PlaybackHandle.PcPublish _ _ => 5
  | PlaybackHandle.PcSetFinished => 3
  | PlaybackHandle.PcSetStop => 2
  | PlaybackHandle.PcNotify => 1
  | PlaybackHandle.PcDone => 0
  end.

(** The schedule has the worker's steps and the passing of time only. *)
Definition worker_and_clock_only (sched : list PlaybackHandle.Event) : Prop :=
  ∀ e, e ∈ sched → e = PlaybackHandle.EvWorker ∨ ∃ d, e = PlaybackHandle.EvTick d.




(** Scenario S2 played to its end: nobody calls [Stop]. *)
Definition S2_schedule : list PlaybackHandle.Event :=
  let w := PlaybackHandle.EvWorker in
  [ w; w; w;                             (* first message, at once *)
    w; PlaybackHandle.EvTick 100000000; w; w;    (* second, at 100 ms *)
    w; PlaybackHandle.EvTick 150000000; w; w;    (* third, at 250 ms *)
    w; w; w; w ].                        (* the batch is exhausted *)

(** How many steps the worker takes in a schedule. *)
Fixpoint worker_steps (sched : list PlaybackHandle.Event) : nat :=
  match sched with
  | [] => 0
  | PlaybackHandle.EvWorker :: sched' => S (worker_steps sched')
  | _ :: sched' => worker_steps sched'
  end.



(** * Properties *)

(** ** The selector *)

Section selector.

Import Playback.

Implicit Types (p : Implementation) (m : NameToMap) (s : gset string).

Lemma keys_of_map_to_list m :
  list_to_set ((map_to_list m).*1) = (dom m : gset string).
Proof.
  apply leibniz_equiv, set_equiv. intros x.
  rewrite elem_of_list_to_set, elem_of_dom, list_elem_of_fmap. split.
  - intros [[k v] [-> Hin]]. apply elem_of_map_to_list in Hin. by exists v.
  - intros [v Hv]. exists (x, v). split; [done|]. by apply elem_of_map_to_list.
Qed.

Lemma insert_all_spec m s : insert_all m s = dom m ∪ s.
Proof.
  unfold insert_all. rewrite <- keys_of_map_to_list.
  generalize (map_to_list m). intros l. revert s.
  induction l as [|e l IH]; intros s; simpl; [set_solver|].
  rewrite IH. set_solver.
Qed.

Lemma add_regex_loop (re : regex) (l : list (string * gmap string Z)) s (n : Z) :
  foldl (AddTopicRegex_body re) (s, n) l
  = (list_to_set (filter (λ t, regex_match t re = true) (l.*1)) ∪ s,
     n + Z.of_nat (length (filter (λ t, regex_match t re = true) (l.*1)))).
Proof.
  revert s n. induction l as [|[k v] l IH]; intros s n; simpl.
  - f_equal; [set_solver|lia].
  - rewrite filter_cons. simpl. destruct (regex_match k re) eqn:Hk; simpl.
    + rewrite IH. change (list_fmap _ _ fst l) with (l.*1).
      f_equal; [set_solver|lia].
    + by rewrite IH.
Qed.

Lemma matching_of_list (re : regex) m :
  list_to_set (filter (λ t, regex_match t re = true) ((map_to_list m).*1))
  = matching re m.
Proof.
  unfold matching. rewrite <- keys_of_map_to_list.
  apply leibniz_equiv, set_equiv. intros x.
  rewrite elem_of_list_to_set, list_elem_of_filter, elem_of_filter,
    elem_of_list_to_set. done.
Qed.

Lemma matching_size (re : regex) m :
  length (filter (λ t, regex_match t re = true) ((map_to_list m).*1))
  = size (matching re m).
Proof.
  rewrite <- matching_of_list. symmetry. apply size_list_to_set.
  apply NoDup_filter, NoDup_fst_map_to_list.
Qed.

Lemma AddTopicRegex_valid (re : regex) p :
  Valid (logFile p) = true →
  AddTopicRegex re p =
    let m := TopicsToMsgTypesToId (LogDescriptor (logFile p)) in
    mkOutcome (Z.of_nat (size (matching re m)))
      (mkImpl (logFile p) (matching re m ∪ topicNames p) true (lastHandle p))
      [].
Proof.
  intros Hv. unfold AddTopicRegex.
  change (logFile (set_addTopicWasUsed true p)) with (logFile p).
  rewrite Hv. change (negb true) with false. cbv iota.
  rewrite add_regex_loop, matching_of_list, matching_size.
  simpl. do 2 f_equal.
Qed.

Lemma remove_regex_loop (re : regex) (l : list string) s (n : Z) :
  foldl (RemoveTopicRegex_body re) (s, n) l
  = (s ∖ list_to_set (filter (λ t, regex_match t re = true) l),
     n + Z.of_nat (length (filter (λ t, regex_match t re = true) l))).
Proof.
  revert s n. induction l as [|k l IH]; intros s n; simpl.
  - f_equal; [set_solver|lia].
  - rewrite filter_cons. destruct (regex_match k re) eqn:Hk; simpl.
    + rewrite IH. f_equal; [set_solver|lia].
    + by rewrite IH.
Qed.

Lemma RemoveTopicRegex_names (re : regex) p :
  topicNames (post (RemoveTopicRegex re p)) ⊆ topicNames (DefaultToAllTopics p).
Proof.
  unfold RemoveTopicRegex. rewrite remove_regex_loop. simpl. set_solver.
Qed.

End selector.

Section selector_claims.

Import Playback.

Implicit Types (p : Implementation) (s : gset string).

Lemma DefaultToAllTopics_unused p :
  addTopicWasUsed p = false →
  DefaultToAllTopics p =
    mkImpl (logFile p) (descriptor_topics (logFile p) ∪ topicNames p) true
      (lastHandle p).
Proof.
  intros Hf. unfold DefaultToAllTopics. rewrite Hf. simpl.
  unfold set_addTopicWasUsed, set_topicNames. simpl.
  by rewrite insert_all_spec.
Qed.

Lemma DefaultToAllTopics_used p :
  addTopicWasUsed p = true → DefaultToAllTopics p = p.
Proof. intros Hf. unfold DefaultToAllTopics. by rewrite Hf. Qed.

Lemma DefaultToAllTopics_flag p : addTopicWasUsed (DefaultToAllTopics p) = true.
Proof.
  destruct (addTopicWasUsed p) eqn:Hf.
  - by rewrite DefaultToAllTopics_used.
  - by rewrite DefaultToAllTopics_unused.
Qed.

Lemma DefaultToAllTopics_logFile p : logFile (DefaultToAllTopics p) = logFile p.
Proof.
  destruct (addTopicWasUsed p) eqn:Hf.
  - by rewrite DefaultToAllTopics_used.
  - by rewrite DefaultToAllTopics_unused.
Qed.

Lemma Start_topics_unused p :
  addTopicWasUsed p = false →
  (Start_topics p).1 = descriptor_topics (logFile p).
Proof.
  intros Hf. unfold Start_topics. rewrite Hf. simpl.
  rewrite insert_all_spec. unfold descriptor_topics. set_solver.
Qed.

Lemma Start_topics_used p :
  addTopicWasUsed p = true → (Start_topics p).1 = topicNames p.
Proof. intros Hf. unfold Start_topics. by rewrite Hf. Qed.

Lemma apply_op_flag op p : addTopicWasUsed (apply_op op p) = true.
Proof.
  destruct op as [t|re|t|re|]; simpl.
  - unfold AddTopic. simpl. destruct (Valid (logFile p)); simpl; [|done].
    by destruct (_ !! t).
  - unfold AddTopicRegex. simpl. destruct (Valid (logFile p)); simpl; [|done].
    by destruct (foldl _ _ _).
  - apply DefaultToAllTopics_flag.
  - unfold RemoveTopicRegex. destruct (foldl _ _ _). simpl.
    apply DefaultToAllTopics_flag.
  - apply DefaultToAllTopics_flag.
Qed.

Lemma apply_op_logFile op p : logFile (apply_op op p) = logFile p.
Proof.
  destruct op as [t|re|t|re|]; simpl.
  - unfold AddTopic. simpl. destruct (Valid (logFile p)); simpl; [|done].
    by destruct (_ !! t).
  - unfold AddTopicRegex. simpl. destruct (Valid (logFile p)); simpl; [|done].
    by destruct (foldl _ _ _).
  - apply DefaultToAllTopics_logFile.
  - unfold RemoveTopicRegex. destruct (foldl _ _ _). simpl.
    apply DefaultToAllTopics_logFile.
  - apply DefaultToAllTopics_logFile.
Qed.

Lemma apply_ops_snoc ops op p :
  apply_ops (ops ++ [op]) p = apply_op op (apply_ops ops p).
Proof. unfold apply_ops. by rewrite foldl_app. Qed.

Lemma apply_ops_logFile ops p : logFile (apply_ops ops p) = logFile p.
Proof.
  induction ops as [|op ops IH] using rev_ind; [done|].
  by rewrite apply_ops_snoc, apply_op_logFile.
Qed.

Lemma apply_ops_flag ops p :
  addTopicWasUsed (apply_ops ops p) = false ↔
  ops = [] ∧ addTopicWasUsed p = false.
Proof.
  destruct ops as [|op ops] using rev_ind; [naive_solver|].
  rewrite apply_ops_snoc, apply_op_flag. split; [done|].
  intros [Hnil _]. by destruct ops.
Qed.

End selector_claims.

Section selector_results.

Import Playback.

Implicit Types (p : Implementation) (s : gset string).

(** C2, at a log that failed to open: [AddTopic(std::regex(".*"))] returns
    -1, which is not greater than or equal to zero.  (The flag is set and the
    selector set is left as it was.) *)
Lemma AddTopicRegex_unopened_negative :
  ret (AddTopicRegex any_topic (New unopened_log)) = -1 ∧
  ¬ (0 ≤ ret (AddTopicRegex any_topic (New unopened_log))).
Proof. split; [reflexivity|]. change (¬ (0 ≤ -1)). lia. Qed.

(** C2, amended: every call of [AddTopic] with a regex sets
    [addTopicWasUsed]; on a valid log it inserts into the selector set every
    topic name of the descriptor that the pattern matches as a whole and
    returns the number of those names, which is at least zero; on an invalid
    log it leaves the set as it was and returns -1. *)
Theorem AddTopicRegex_spec (re : regex) p :
  let o := AddTopicRegex re p in
  let m := TopicsToMsgTypesToId (LogDescriptor (logFile p)) in
  addTopicWasUsed (post o) = true ∧
  (Valid (logFile p) = true →
     topicNames (post o) = matching re m ∪ topicNames p ∧
     (∀ t, t ∈ matching re m ↔
           t ∈ descriptor_topics (logFile p) ∧ regex_match t re = true) ∧
     ret o = Z.of_nat (size (matching re m)) ∧ 0 ≤ ret o) ∧
  (Valid (logFile p) = false →
     topicNames (post o) = topicNames p ∧ ret o = -1).
Proof.
  simpl. split; [|split].
  - apply (apply_op_flag (OpAddTopicRegex re)).
  - intros Hv. rewrite AddTopicRegex_valid by done. simpl.
    repeat split; try lia.
    + unfold matching, descriptor_topics in *. set_solver.
    + unfold matching, descriptor_topics in *. set_solver.
    + unfold matching, descriptor_topics in *. set_solver.
  - intros Hv. unfold AddTopicRegex. simpl. by rewrite Hv.
Qed.

Lemma AddTopicRegex_spec_witness :
  let o := AddTopicRegex any_topic (New foo_bar_log) in
  Valid foo_bar_log = true ∧
  topicNames (post o) =
    matching any_topic (TopicsToMsgTypesToId (LogDescriptor foo_bar_log)) ∪ ∅ ∧
  0 ≤ ret o.
Proof.
  split; [reflexivity|].
  destruct (AddTopicRegex_spec any_topic (New foo_bar_log)) as (_ & Hv & _).
  destruct (Hv eq_refl) as (Hn & _ & _ & Hr). split; [exact Hn|exact Hr].
Defined.

(** C9: [AddTopic] with a literal name sets [addTopicWasUsed] in every case;
    on an invalid log it fails and returns false; on a valid log, a name
    that is not in the descriptor brings a warning and false, and a name that
    is in it is inserted into the selector set and brings true. *)
Theorem AddTopic_spec (_topic : string) p :
  let o := AddTopic _topic p in
  addTopicWasUsed (post o) = true ∧
  (Valid (logFile p) = false →
     ret o = false ∧ console o = [LERR "Failed to open log file"] ∧
     topicNames (post o) = topicNames p) ∧
  (Valid (logFile p) = true → _topic ∉ descriptor_topics (logFile p) →
     ret o = false ∧
     console o = [LWRN ("Topic [" +:+ _topic +:+ "] is not in the log")] ∧
     topicNames (post o) = topicNames p) ∧
  (Valid (logFile p) = true → _topic ∈ descriptor_topics (logFile p) →
     ret o = true ∧ console o = [] ∧
     topicNames (post o) = {[_topic]} ∪ topicNames p).
Proof.
  simpl. split; [apply (apply_op_flag (OpAddTopic _topic))|].
  unfold AddTopic, descriptor_topics. simpl.
  split; [|split].
  - intros Hv. by rewrite Hv.
  - intros Hv Hin. apply not_elem_of_dom in Hin. by rewrite Hv, Hin.
  - intros Hv [x Hin]%elem_of_dom. by rewrite Hv, Hin.
Qed.

Lemma AddTopic_spec_witness :
  ret (AddTopic "/foo" (New unopened_log)) = false ∧
  ret (AddTopic "/baz" (New foo_bar_log)) = false ∧
  addTopicWasUsed (post (AddTopic "/baz" (New foo_bar_log))) = true ∧
  ret (AddTopic "/foo" (New foo_bar_log)) = true ∧
  topicNames (post (AddTopic "/foo" (New foo_bar_log))) = {["/foo"]} ∪ ∅.
Proof.
  destruct (AddTopic_spec "/foo" (New unopened_log)) as (_ & H1 & _).
  destruct (AddTopic_spec "/baz" (New foo_bar_log)) as (H2 & _ & H3 & _).
  destruct (AddTopic_spec "/foo" (New foo_bar_log)) as (_ & _ & _ & H4).
  split; [exact (proj1 (H1 eq_refl))|].
  split; [refine (proj1 (H3 eq_refl _)); vm_compute; set_solver|].
  split; [exact H2|].
  assert (Hin : "/foo" ∈ descriptor_topics (logFile (New foo_bar_log))).
  { unfold descriptor_topics. simpl. rewrite !dom_insert_L. set_solver. }
  split; [exact (proj1 (H4 eq_refl Hin))|exact (proj2 (proj2 (H4 eq_refl Hin)))].
Defined.

End selector_results.

(** ** Construction of a handle from a snapshot *)

Section construction.

Import PlaybackHandle.

Lemma CreatePublisher_frame (_topic _type : string) (h : Implementation) :
  let h' := CreatePublisher _topic _type h in
  logFile h' = logFile h ∧ stop h' = stop h ∧ finished h' = finished h ∧
  pc h' = pc h ∧ clock h' = clock h ∧ emitted h' = emitted h ∧
  joining h' = joining h ∧ waiting h' = waiting h ∧ joined h' = joined h.
Proof.
  unfold CreatePublisher.
  destruct (publishers h !! _topic); simpl;
    repeat match goal with |- context [match ?x with _ => _ end] =>
      destruct x; simpl end; done.
Qed.

Lemma AddTopic_frame (_topic : string) (h h' : Implementation) :
  AddTopic _topic h = Some h' →
  logFile h' = logFile h ∧ stop h' = stop h ∧ finished h' = finished h ∧
  pc h' = pc h ∧ clock h' = clock h ∧ emitted h' = emitted h ∧
  joining h' = joining h ∧ waiting h' = waiting h ∧ joined h' = joined h.
Proof.
  unfold AddTopic. destruct (_ !! _topic) as [types|]; [|done].
  intros [= <-]. generalize (map_to_list types). intros l.
  induction l as [|e l IH] using rev_ind; [done|].
  rewrite foldl_app. simpl.
  pose proof (CreatePublisher_frame _topic e.1
    (foldl (λ acc typeEntry, CreatePublisher _topic typeEntry.1 acc) h l)) as Hc.
  simpl in Hc. intuition congruence.
Qed.

Lemma AddTopic_is_Some (_topic : string) (h : Implementation) :
  is_Some (AddTopic _topic h) ↔ _topic ∈ descriptor_topics (logFile h).
Proof.
  unfold AddTopic, descriptor_topics. rewrite elem_of_dom.
  destruct (_ !! _topic); split; intros [x Hx]; (done || eauto).
Qed.

Lemma AddTopic_all (l : list string) (h : Implementation) :
  (∀ t, t ∈ l → t ∈ descriptor_topics (logFile h)) →
  ∃ h', foldl (λ acc topic, acc ≫= AddTopic topic) (Some h) l = Some h' ∧
        logFile h' = logFile h ∧ clock h' = clock h.
Proof.
  induction l as [|t l IH] using rev_ind; intros Hin; [by exists h|].
  destruct IH as (h1 & Hf & Hl & Hc).
  { intros t' Ht'. apply Hin, elem_of_app. by left. }
  rewrite foldl_app, Hf. simpl.
  destruct (AddTopic t h1) as [h2|] eqn:Ha.
  - exists h2. split; [done|]. apply AddTopic_frame in Ha.
    intuition congruence.
  - assert (is_Some (AddTopic t h1)) as [h2 Hh2]; [|congruence].
    apply AddTopic_is_Some. rewrite Hl. apply Hin, elem_of_app. right.
    by apply list_elem_of_singleton.
Qed.

Lemma AddTopic_any_missing (l : list string) (t : string) (o : option Implementation) :
  t ∈ l →
  (∀ h, o = Some h → t ∉ descriptor_topics (logFile h)) →
  foldl (λ acc topic, acc ≫= AddTopic topic) o l = None.
Proof.
  revert o. induction l as [|t' l IH]; intros o Hin Ho.
  - by apply not_elem_of_nil in Hin.
  - simpl. apply elem_of_cons in Hin as [<-|Hin].
    + destruct o as [h|]; simpl.
      * destruct (AddTopic t h) eqn:Ha.
        -- exfalso. apply (Ho h eq_refl), AddTopic_is_Some. by rewrite Ha.
        -- clear. by induction l.
      * clear. by induction l.
    + apply IH; [done|]. intros h Hh. destruct o as [h0|]; [|done].
      simpl in Hh. apply AddTopic_frame in Hh as (-> & _). by apply Ho.
Qed.

(** The constructor comes through exactly when the snapshot holds topic names
    of the descriptor only. *)
Lemma New_is_Some (log : Log) (topics : gset string) (wait : Z) :
  is_Some (New log topics wait) ↔ topics ⊆ descriptor_topics log.
Proof.
  unfold New. split.
  - intros [r Hr] t Ht.
    destruct (decide (t ∈ descriptor_topics log)) as [|Hn]; [done|]. exfalso.
    rewrite (AddTopic_any_missing (elements topics) t) in Hr; [done|..].
    + by apply elem_of_elements.
    + by intros h [= <-].
  - intros Hsub.
    edestruct (AddTopic_all (elements topics)) as (h' & -> & _).
    { intros t Ht%elem_of_elements. simpl. by apply Hsub. }
    simpl. eauto.
Qed.

End construction.

Section selector_invariant.

Import Playback.

Implicit Types (p : Implementation).

Lemma apply_op_within op p :
  topicNames p ⊆ descriptor_topics (logFile p) →
  topicNames (apply_op op p) ⊆ descriptor_topics (logFile p).
Proof.
  intros Hsub. destruct op as [t|re|t|re|]; simpl.
  - unfold AddTopic, descriptor_topics in *. simpl.
    destruct (Valid (logFile p)); simpl; [|done].
    destruct (_ !! t) eqn:Ht; simpl; [|done].
    assert (t ∈ dom (TopicsToMsgTypesToId (LogDescriptor (logFile p))))
      by (apply elem_of_dom; eauto).
    set_solver.
  - destruct (Valid (logFile p)) eqn:Hv.
    + rewrite AddTopicRegex_valid by done. simpl.
      unfold matching, descriptor_topics in *. set_solver.
    + unfold AddTopicRegex. simpl. by rewrite Hv.
  - destruct (addTopicWasUsed p) eqn:Hf.
    + rewrite DefaultToAllTopics_used by done. set_solver.
    + rewrite DefaultToAllTopics_unused by done. simpl. set_solver.
  - etrans; [apply RemoveTopicRegex_names|].
    destruct (addTopicWasUsed p) eqn:Hf.
    + by rewrite DefaultToAllTopics_used.
    + rewrite DefaultToAllTopics_unused by done. simpl. set_solver.
  - destruct (addTopicWasUsed p) eqn:Hf.
    + by rewrite DefaultToAllTopics_used.
    + rewrite DefaultToAllTopics_unused by done. simpl. set_solver.
Qed.

Lemma apply_ops_within ops p :
  topicNames p ⊆ descriptor_topics (logFile p) →
  topicNames (apply_ops ops p) ⊆ descriptor_topics (logFile p).
Proof.
  intros Hsub. induction ops as [|op ops IH] using rev_ind; [done|].
  rewrite apply_ops_snoc. rewrite <- (apply_ops_logFile ops p).
  apply apply_op_within. by rewrite apply_ops_logFile.
Qed.

Lemma Start_topics_within p :
  topicNames p ⊆ descriptor_topics (logFile p) →
  (Start_topics p).1 ⊆ descriptor_topics (logFile p).
Proof.
  intros Hsub. destruct (addTopicWasUsed p) eqn:Hf.
  - by rewrite Start_topics_used.
  - by rewrite Start_topics_unused.
Qed.

Lemma Start_is_Some (ts : bool) (wait : Z) p (heap : Heap) :
  topicNames p ⊆ descriptor_topics (logFile p) →
  is_Some (Start ts wait p heap).
Proof.
  intros Hsub. unfold Start.
  destruct (negb (Valid (logFile p))); [eauto|].
  destruct (negb ts && last_handle_busy p heap); [eauto|].
  pose proof (Start_topics_within p Hsub) as Hw.
  destruct (Start_topics p) as [topics dbg]. simpl in Hw.
  apply (New_is_Some _ _ wait) in Hw as [[h warn] ->]. simpl. eauto.
Qed.

(** C10: after every sequence of selector operations on a factory, the
    selector set holds topic names of the descriptor only; so does the
    snapshot that [Start] takes, and the construction of the handle from it
    never dereferences the end iterator in [AddTopic] (which is what a name
    outside the descriptor would bring about). *)
Theorem selector_within_descriptor (log : Log) (ops : list SelectorOp) :
  let p := apply_ops ops (New log) in
  topicNames p ⊆ descriptor_topics log ∧
  (Start_topics p).1 ⊆ descriptor_topics log ∧
  (∀ wait, is_Some (PlaybackHandle.New (logFile p) (Start_topics p).1 wait)) ∧
  (∀ ts wait heap, is_Some (Start ts wait p heap)) ∧
  (∀ t (h : PlaybackHandle.Implementation),
     t ∈ (Start_topics p).1 → PlaybackHandle.logFile h = log →
     is_Some (PlaybackHandle.AddTopic t h)).
Proof.
  simpl.
  assert (Hlog : logFile (apply_ops ops (New log)) = log)
    by apply apply_ops_logFile.
  assert (Hsub : topicNames (apply_ops ops (New log)) ⊆
                 descriptor_topics (logFile (apply_ops ops (New log)))).
  { rewrite Hlog. rewrite <- (apply_ops_logFile ops (New log)) at 2.
    rewrite Hlog. change log with (logFile (New log)) at 2.
    apply apply_ops_within. simpl. set_solver. }
  pose proof (Start_topics_within _ Hsub) as Hsnap.
  rewrite Hlog in Hsub, Hsnap.
  split; [done|]. split; [done|]. split; [|split].
  - intros wait. rewrite Hlog. by apply New_is_Some.
  - intros ts wait heap. apply Start_is_Some. by rewrite Hlog.
  - intros t h Ht <-. apply AddTopic_is_Some. by apply Hsnap.
Qed.

End selector_invariant.

Section snapshot.

Import Playback.

Implicit Types (p : Implementation).

(** C4, as stated, fails when [RemoveTopic] has been called: no call of
    [AddTopic] was made on the factory, yet the snapshot lacks [/foo]. *)
Lemma snapshot_after_remove_is_not_all :
  let ops := [OpRemoveTopic "/foo"] in
  Valid foo_bar_log = true ∧
  forallb (λ op, negb (is_add_topic op)) ops = true ∧
  (Start_topics (apply_ops ops (New foo_bar_log))).1 = {["/bar"]} ∧
  descriptor_topics foo_bar_log = {["/foo"; "/bar"]} ∧
  (Start_topics (apply_ops ops (New foo_bar_log))).1
    ≠ descriptor_topics foo_bar_log.
Proof.
  assert (Hd : descriptor_topics foo_bar_log = {["/foo"; "/bar"]}).
  { unfold descriptor_topics. simpl. rewrite !dom_insert_L. set_solver. }
  assert (Hs : (Start_topics (apply_ops [OpRemoveTopic "/foo"]
                                (New foo_bar_log))).1 = {["/bar"]}).
  { change (apply_ops [OpRemoveTopic "/foo"] (New foo_bar_log))
      with (post (RemoveTopic "/foo" (New foo_bar_log))).
    rewrite Start_topics_used by apply (apply_op_flag (OpRemoveTopic "/foo")).
    unfold RemoveTopic. rewrite DefaultToAllTopics_unused by done.
    cbn [post topicNames set_topicNames New logFile]. rewrite Hd.
    apply leibniz_equiv, set_equiv. intros x.
    rewrite elem_of_difference, !elem_of_union, !elem_of_singleton.
    split; [|intros ->; split; [|done]]; naive_solver. }
  split; [reflexivity|]. split; [reflexivity|].
  split; [exact Hs|]. split; [exact Hd|].
  rewrite Hs, Hd. intros Heq.
  assert (Hin : "/foo" ∈ ({["/bar"]} : gset string)) by (rewrite Heq; set_solver).
  by apply elem_of_singleton in Hin.
Qed.

(** C4, amended: on a valid log, if neither [AddTopic] nor [RemoveTopic]
    (in either overload) has been called before [Start], the snapshot taken
    by [Start] is the full set of topic names of the descriptor. *)
Theorem Start_topics_default_to_all (log : Log) (ops : list SelectorOp) :
  Valid log = true →
  (∀ op, op ∈ ops → is_add_topic op = false ∧ is_remove_topic op = false) →
  (Start_topics (apply_ops ops (New log))).1 = descriptor_topics log.
Proof.
  intros _ Hops.
  assert (Hinv : let p := apply_ops ops (New log) in
            logFile p = log ∧
            (addTopicWasUsed p = true → topicNames p = descriptor_topics log)).
  { induction ops as [|op ops IH] using rev_ind; [done|].
    rewrite apply_ops_snoc. destruct IH as [Hl Ht].
    { intros op' Hin. apply Hops, elem_of_app. by left. }
    destruct (Hops op) as [Ha Hr].
    { apply elem_of_app. right. by apply list_elem_of_singleton. }
    destruct op; try done. simpl.
    destruct (addTopicWasUsed (apply_ops ops (New log))) eqn:Hf.
    - rewrite DefaultToAllTopics_used by done. by rewrite Hf.
    - rewrite DefaultToAllTopics_unused by done. simpl. split; [done|].
      intros _. rewrite Hl.
      assert (Hn : topicNames (apply_ops ops (New log)) ⊆ descriptor_topics log).
      { pose proof (apply_ops_within ops (New log)) as Hw. simpl in Hw.
        apply Hw. set_solver. }
      set_solver. }
  destruct Hinv as [Hl Ht].
  destruct (addTopicWasUsed (apply_ops ops (New log))) eqn:Hf.
  - rewrite Start_topics_used by done. by apply Ht.
  - rewrite Start_topics_unused by done. by rewrite Hl.
Qed.

Lemma Start_topics_default_to_all_witness :
  (Start_topics (apply_ops [] (New foo_bar_log))).1
  = descriptor_topics foo_bar_log.
Proof.
  apply (Start_topics_default_to_all foo_bar_log []); [reflexivity|].
  intros op Hin. by apply not_elem_of_nil in Hin.
Defined.

(** C5: on a valid log, when [RemoveTopic(X)] is the only mutation of the
    selector before [Start], the snapshot taken by [Start] is the set of the
    descriptor's topic names without [X]. *)
Theorem Start_topics_after_remove (log : Log) (X : string) :
  Valid log = true →
  (Start_topics (post (RemoveTopic X (New log)))).1
  = descriptor_topics log ∖ {[X]}.
Proof.
  intros _. rewrite Start_topics_used.
  - unfold RemoveTopic. rewrite DefaultToAllTopics_unused by done.
    simpl. set_solver.
  - apply (apply_op_flag (OpRemoveTopic X)).
Qed.

Lemma Start_topics_after_remove_witness :
  (Start_topics (post (RemoveTopic "/foo" (New foo_bar_log)))).1
  = descriptor_topics foo_bar_log ∖ {["/foo"]}.
Proof. apply (Start_topics_after_remove foo_bar_log "/foo"). reflexivity. Defined.

End snapshot.

(** ** The worker thread *)

Section worker.

Import PlaybackHandle.

Implicit Types (h : Implementation) (e : Event) (sched : list Event).

Lemma run_app sched1 sched2 h :
  run (sched1 ++ sched2) h = run sched1 h ≫= run sched2.
Proof.
  revert h. induction sched1 as [|e sched1 IH]; intros h; simpl; [done|].
  destruct (step e h); simpl; [apply IH|done].
Qed.

Lemma run_snoc sched e h h' :
  run (sched ++ [e]) h = Some h' ↔
  ∃ h1, run sched h = Some h1 ∧ step e h1 = Some h'.
Proof.
  rewrite run_app. split.
  - destruct (run sched h) as [h1|]; simpl; [|done].
    destruct (step e h1) eqn:Hs; [|done]. intros [= <-]. eauto.
  - intros (h1 & -> & Hs). simpl. by rewrite Hs.
Qed.

(** Something that every event keeps, holds after every schedule. *)
Lemma run_ind (P : Implementation → Prop) :
  (∀ e h h', P h → step e h = Some h' → P h') →
  ∀ sched h h', P h → run sched h = Some h' → P h'.
Proof.
  intros Hstep sched. induction sched as [|e sched IH]; intros h h' HP; simpl.
  - by intros [= <-].
  - destruct (step e h) as [h1|] eqn:Hs; [|done]. eauto.
Qed.

(** Events other than the worker's leave its position and its output. *)
Lemma step_other_pc e h h' :
  e ≠ EvWorker → step e h = Some h' →
  pc h' = pc h ∧ emitted h' = emitted h ∧ logFile h' = logFile h ∧
  finished h' = finished h.
Proof.
  intros He. destruct e; simpl; try done.
  - destruct (0 <=? d); [|done]. by intros [= <-].
  - intros [= <-]. unfold Stop_enter.
    destruct (negb _); [done|]. by destruct (joinable _).
  - destruct (joining h); [done|]. destruct (pc h) eqn:Hpc; try done.
    intros [= <-]. by rewrite <- Hpc.
  - intros [= <-]. unfold WaitUntilFinished_enter. by destruct (_ && _).
  - destruct (waiting h); [done|]. destruct (finished h) eqn:Hf; [|done].
    by intros [= <-].
Qed.

Lemma worker_step_trail batch h : trail batch h → trail batch (worker_step h).
Proof.
  unfold trail, worker_step.
  destruct (pc h) as [|b|[|m r]|m r|m r| | | |] eqn:Hpc; simpl; try done.
  - by intros [-> ->].
  - intros <-. by exists [].
  - intros <-. destruct (stop h); simpl; [eexists; done|].
    by destruct (publishedFirstMessage h).
  - intros <-. destruct (wait_is_over m h); simpl; [done|]. by rewrite Hpc.
  - intros <-. by rewrite <- app_assoc.
  - by rewrite Hpc.
Qed.

Lemma step_trail batch e h h' :
  trail batch h → step e h = Some h' → trail batch h'.
Proof.
  intros Ht Hs.
  destruct e;
    try (match type of Hs with
         | step ?e' _ = _ =>
             destruct (step_other_pc e' h h' ltac:(done) Hs) as (Hpc & Hem & _)
         end; unfold trail; by rewrite Hpc, Hem).
  injection Hs as <-. by apply worker_step_trail.
Qed.

Lemma trail_prefix batch h : trail batch h → emitted h `prefix_of` batch.
Proof.
  unfold trail. destruct (pc h); try done.
  - intros [_ ->]. apply prefix_nil.
  - intros <-. by eexists.
  - intros <-. by eexists.
  - intros <-. by eexists.
Qed.

Lemma StartPlayback_trail batch h :
  emitted h = [] → trail batch (StartPlayback batch h).
Proof. intros He. unfold trail. simpl. done. Qed.

Lemma StronglySorted_lookup {A} (R : relation A) (l : list A) i j x y :
  StronglySorted R l → (i < j)%nat →
  l !! i = Some x → l !! j = Some y → R x y.
Proof.
  intros Hs. revert i j. induction Hs as [|a l Hs IH Hall]; intros i j Hij.
  - done.
  - destruct j as [|j]; [lia|]. destruct i as [|i]; simpl.
    + intros [= <-] Hj. rewrite Forall_forall in Hall. apply Hall.
      by eapply list_elem_of_lookup_2.
    + apply IH. lia.
Qed.

Lemma QueryMessages_sorted (log : Log) (topics : gset string) :
  Sorted time_le (QueryMessages log topics).
Proof. apply Sorted_merge_sort, _. Qed.

(** C8: whatever happens to a session that [StartPlayback] started on a
    batch in non-decreasing order of [TimeReceived], the messages it has
    emitted are in that order: an earlier one was not received later than a
    later one. *)
Theorem emitted_in_replay_order (batch : list Message) h sched h'
    (i j : nat) (m_i m_j : Message) :
  Sorted time_le batch →
  emitted h = [] →
  run sched (StartPlayback batch h) = Some h' →
  (i < j)%nat →
  emitted h' !! i = Some m_i →
  emitted h' !! j = Some m_j →
  TimeReceived m_i ≤ TimeReceived m_j.
Proof.
  intros Hsorted Hnil Hrun Hij Hi Hj.
  assert (Hpre : emitted h' `prefix_of` batch).
  { apply trail_prefix.
    eapply (run_ind (trail batch)); [apply step_trail| |done].
    by apply StartPlayback_trail. }
  apply Sorted_StronglySorted in Hsorted; [|apply _].
  eapply (StronglySorted_lookup time_le batch i j); try done.
  - by eapply prefix_lookup_Some.
  - by eapply prefix_lookup_Some.
Qed.

End worker.

Section worker_witness.

Import PlaybackHandle.

Lemma emitted_in_replay_order_witness :
  TimeReceived (foo_at 0) ≤ TimeReceived (foo_at 100000000).
Proof.
  apply (emitted_in_replay_order (Rows S2_log) (Init S2_log)
           [EvWorker; EvWorker; EvWorker; EvWorker; EvTick 100000000;
            EvWorker; EvWorker]
           (mkImpl
              (<["/foo" := {[".msg.foo" := NoPublisher]}]> ∅)
              false false S2_log (PcLoop [foo_at 250000000]) false 0 0 true
              100000000 [foo_at 0; foo_at 100000000] 0 0)
           0 1).
  - repeat constructor; unfold time_le; simpl; lia.
  - reflexivity.
  - vm_compute. reflexivity.
  - lia.
  - reflexivity.
  - reflexivity.
Defined.

End worker_witness.

(** ** The life of a session *)

Section session.

Import PlaybackHandle.

Implicit Types (h : Implementation) (e : Event) (sched : list Event).

Lemma AddTopic_fold_frame (l : list string) h h' :
  foldl (λ acc topic, acc ≫= AddTopic topic) (Some h) l = Some h' →
  logFile h' = logFile h ∧ stop h' = stop h ∧ finished h' = finished h ∧
  pc h' = pc h ∧ clock h' = clock h ∧ emitted h' = emitted h ∧
  joining h' = joining h ∧ waiting h' = waiting h ∧ joined h' = joined h.
Proof.
  revert h'. induction l as [|t l IH] using rev_ind; intros h'.
  - by intros [= <-].
  - rewrite foldl_app. simpl.
    destruct (foldl _ (Some h) l) as [h1|]; [|done]. simpl. intros Ha.
    apply AddTopic_frame in Ha. specialize (IH h1 eq_refl).
    intuition congruence.
Qed.

Lemma New_shape (log : Log) (topics : gset string) (wait : Z) h diag :
  New log topics wait = Some (h, diag) →
  logFile h = log ∧ stop h = false ∧ finished h = false ∧
  pc h = PcStart (QueryMessages log topics) ∧ emitted h = [] ∧
  joining h = 0%nat ∧ waiting h = 0%nat ∧ joined h = false.
Proof.
  unfold New.
  destruct (foldl _ (Some (Init log)) (elements topics)) as [h1|] eqn:Hf;
    [|done].
  simpl. intros [= <- _]. apply AddTopic_fold_frame in Hf. simpl in Hf.
  destruct Hf as (Hl & _ & Hfin & _ & _ & Hem & Hjg & Hwt & Hjd).
  simpl. rewrite Hl. by repeat split.
Qed.

Lemma issued_inv h : issued h → session_inv h.
Proof.
  intros (log & topics & wait & diag & Hv & Hn).
  apply New_shape in Hn as (Hl & Hs & Hf & Hpc & _ & Hjg & _ & Hjd).
  unfold session_inv. rewrite Hl, Hs, Hf, Hpc, Hjd. by repeat split.
Qed.

Lemma worker_step_inv h : session_inv h → session_inv (worker_step h).
Proof.
  destruct h as [pubs st fin lf p jd sT fT pF ck em jg wt].
  unfold session_inv, worker_step. simpl.
  intros (Hv & Hpc & Hf & Hj & Hs).
  destruct p as [|b|[|m r]|m r|m r| | | |]; simpl in *;
    repeat match goal with
           | |- context [if ?c then _ else _] => destruct c eqn:?; simpl
           end;
    repeat split; try done; try (intros ?; by apply Hs);
    try (intros Hjd; by specialize (Hj Hjd)); try congruence.
Qed.

Lemma step_inv e h h' : session_inv h → step e h = Some h' → session_inv h'.
Proof.
  destruct e; simpl.
  - intros Hi [= <-]. by apply worker_step_inv.
  - destruct (0 <=? d); [|done]. by intros Hi [= <-].
  - intros (Hv & Hpc & Hf & Hj & Hs) [= <-].
    unfold Stop_enter, session_inv. rewrite Hv. simpl.
    unfold joinable. simpl.
    destruct (pc h) eqn:Hp; try done; simpl;
      destruct (joined h) eqn:Hjd; simpl; rewrite ?Hp;
      repeat split; try done; try lia;
      try (by specialize (Hj eq_refl));
      try (intros; simpl in *; congruence).
  - destruct (joining h) eqn:Hjg; [done|].
    destruct (pc h) eqn:Hp; try done.
    intros (Hv & Hpc & Hf & Hj & Hs) [= <-]. unfold session_inv. simpl.
    rewrite Hp in *. simpl in *. repeat split; try done.
    intros _ Hfin. congruence.
  - intros Hi [= <-]. unfold WaitUntilFinished_enter.
    by destruct (_ && _).
  - destruct (waiting h); [done|]. destruct (finished h) eqn:Hfin; [|done].
    by intros Hi [= <-].
Qed.

Lemma run_inv sched h h' : session_inv h → run sched h = Some h' → session_inv h'.
Proof. apply (run_ind session_inv), step_inv. Qed.

Lemma worker_step_finished h :
  session_inv h → finished h = true → finished (worker_step h) = true.
Proof.
  intros (_ & _ & Hf & _) Hfin. rewrite Hfin in Hf.
  unfold worker_step. destruct (pc h); try done.
Qed.

Lemma step_finished e h h' :
  session_inv h → finished h = true → step e h = Some h' → finished h' = true.
Proof.
  intros Hi Hfin Hs. destruct e;
    try (match type of Hs with
         | step ?e' _ = _ =>
             destruct (step_other_pc e' h h' ltac:(done) Hs) as (_ & _ & _ & Hf)
         end; by rewrite Hf).
  injection Hs as <-. by apply worker_step_finished.
Qed.

(** Once set, [finished] stays set. *)
Lemma finished_stable sched h h' :
  session_inv h → finished h = true → run sched h = Some h' →
  finished h' = true.
Proof.
  intros Hi Hf Hr.
  apply (run_ind (λ h, session_inv h ∧ finished h = true)) with (h:=h) (h':=h')
        (sched:=sched); [|done|done].
  intros e h1 h2 [Hi1 Hf1] Hs. split; [by eapply step_inv|by eapply step_finished].
Qed.

End session.

Section stop_and_wait.

Import PlaybackHandle.

Implicit Types (h : Implementation) (e : Event) (sched : list Event).

Lemma S2_session_New :
  New S2_log {["/foo"]} 0 = Some (S2_session, S2_construction_console).
Proof. vm_compute. reflexivity. Qed.

Lemma S2_session_issued : issued S2_session.
Proof.
  exists S2_log, {["/foo"]}, 0, S2_construction_console.
  split; [reflexivity|apply S2_session_New].
Qed.

(** When [Stop] returns on a handle that [Start] issued, the worker has left
    its loop: [finished] is true. *)
Lemma Stop_then_Finished h0 sched h e h' :
  issued h0 →
  run sched h0 = Some h →
  step e h = Some h' →
  Stop_returns e h = true →
  Finished h' = true.
Proof.
  intros Hi Hrun Hstep Hret.
  destruct (run_inv sched h0 h (issued_inv h0 Hi) Hrun)
    as (Hv & Hpc & Hf & Hj & _).
  destruct e; simpl in Hret; try done.
  - injection Hstep as <-. rewrite Hv in Hret. simpl in Hret.
    unfold Stop_enter, joinable in *. rewrite Hv. simpl.
    destruct (pc h) eqn:Hp; try done; simpl in *;
      destruct (joined h); try done; specialize (Hj eq_refl); try done.
  - simpl in Hstep. destruct (joining h); [done|].
    destruct (pc h) eqn:Hp; try done. injection Hstep as <-. simpl.
    by rewrite Hf.
Qed.

(** C3, as stated, fails when a second caller is inside [Stop]: [Stop] has
    set the flag and waits in [join], the worker has not left its loop yet,
    and [WaitUntilFinished] on the same handle returns at once although
    [Finished()] is still false. *)
Lemma WaitUntilFinished_returns_unfinished :
  Valid S2_log = true ∧
  (WaitUntilFinished_returns EvWaitUntilFinished
     <$> session_of S2_log {["/foo"]} 0 [EvStop]) = Some true ∧
  (Finished
     <$> session_of S2_log {["/foo"]} 0 [EvStop; EvWaitUntilFinished])
  = Some false.
Proof.
  unfold session_of. rewrite S2_session_New. by vm_compute.
Qed.

(** C3, amended: when [WaitUntilFinished] returns on a handle that [Start]
    issued, [Finished()] is true, and stays true, provided the call has
    waited (it found the stop flag clear and returns from the wait on
    [waitConditionVariable]), or no call of [Stop] on that handle is waiting
    in [join] at the moment it returns at once. *)
Theorem WaitUntilFinished_then_Finished h0 sched h e h' :
  issued h0 →
  run sched h0 = Some h →
  step e h = Some h' →
  WaitUntilFinished_returns e h = true →
  e = EvWake ∨ joining h = 0%nat →
  Finished h' = true ∧
  (∀ sched' h'', run sched' h' = Some h'' → Finished h'' = true).
Proof.
  intros Hi Hrun Hstep Hret Hjoin.
  pose proof (run_inv sched h0 h (issued_inv h0 Hi) Hrun) as Hinv.
  pose proof (step_inv e h h' Hinv Hstep) as Hinv'.
  assert (Hf : finished h' = true).
  { destruct Hinv as (Hv & _ & _ & _ & Hs).
    destruct e; simpl in Hret; try done.
    - destruct Hjoin as [?|Hjoin]; [done|].
      injection Hstep as <-. unfold WaitUntilFinished_enter.
      rewrite Hv in *. simpl in *. destruct (stop h) eqn:Hst; [|done].
      simpl. destruct (finished h) eqn:Hfin; [done|].
      specialize (Hs eq_refl eq_refl). lia.
    - simpl in Hstep. destruct (waiting h); [done|].
      rewrite Hret in Hstep. injection Hstep as <-. done. }
  split; [done|]. intros sched' h'' Hrun'.
  by eapply finished_stable.
Qed.

Lemma WaitUntilFinished_then_Finished_witness :
  (∃ h h',
     run (take 17 S3_schedule) S2_session = Some h ∧
     joining h = 1%nat ∧
     step EvWake h = Some h' ∧
     Finished h' = true) ∧
  run (take 18 S3_schedule ++ [EvWaitUntilFinished]) S2_session
    = Some (S3_session 1) ∧
  Finished (S3_session 1) = true.
Proof.
  split.
  - destruct (run (take 17 S3_schedule) S2_session) as [h|] eqn:Hrun;
      [|vm_compute in Hrun; discriminate Hrun].
    assert (Hh : joining h = 1%nat ∧ waiting h = 1%nat ∧ finished h = true).
    { vm_compute in Hrun. injection Hrun as <-. by repeat split. }
    destruct Hh as (Hj & Hw & Hf).
    exists h, (set_waiting 0 h). split; [reflexivity|]. split; [exact Hj|].
    assert (Hstep : step EvWake h = Some (set_waiting 0 h)).
    { simpl. by rewrite Hw, Hf. }
    split; [exact Hstep|].
    apply (WaitUntilFinished_then_Finished S2_session (take 17 S3_schedule)
             h EvWake (set_waiting 0 h)).
    + apply S2_session_issued.
    + exact Hrun.
    + exact Hstep.
    + simpl. by rewrite Hw.
    + by left.
  - assert (Hrun : run (take 18 S3_schedule) S2_session = Some (S3_session 1))
      by (vm_compute; reflexivity).
    assert (Hstep : step EvWaitUntilFinished (S3_session 1)
                    = Some (S3_session 1)) by reflexivity.
    split; [by rewrite run_app, Hrun; simpl|].
    apply (WaitUntilFinished_then_Finished S2_session (take 18 S3_schedule)
             (S3_session 1) EvWaitUntilFinished (S3_session 1)).
    + apply S2_session_issued.
    + exact Hrun.
    + exact Hstep.
    + reflexivity.
    + by right.
Defined.

End stop_and_wait.

Section stop_in_the_wait.

Import PlaybackHandle.

Implicit Types (h : Implementation) (e : Event) (sched : list Event).

Lemma worker_step_emitted h : ∃ l, emitted (worker_step h) = emitted h ++ l.
Proof.
  unfold worker_step.
  destruct (pc h) as [|b|[|m r]|m r|m r| | | |]; simpl;
    repeat match goal with
           | |- context [if ?c then _ else _] => destruct c; simpl
           end;
    try (exists []; by rewrite app_nil_r).
  by exists [m].
Qed.

Lemma step_emitted e h h' :
  step e h = Some h' → ∃ l, emitted h' = emitted h ++ l.
Proof.
  intros Hs. destruct e;
    try (match type of Hs with
         | step ?e' _ = _ =>
             destruct (step_other_pc e' h h' ltac:(done) Hs) as (_ & -> & _)
         end; exists []; by rewrite app_nil_r).
  injection Hs as <-. apply worker_step_emitted.
Qed.

(** From the timed wait before [msg] there is one way on: to the publication
    of [msg].  Whether the predicate held because the time had come or
    because [stop] was set makes no difference. *)
Lemma wait_leads_to_publication sched h h' (msg : Message) (rest : list Message) :
  pc h = PcWait msg rest →
  run sched h = Some h' →
  ((pc h' = PcWait msg rest ∨ pc h' = PcPublish msg rest) ∧
   emitted h' = emitted h) ∨
  (∃ tail, emitted h' = emitted h ++ msg :: tail).
Proof.
  intros Hpc Hrun.
  apply (run_ind (λ x,
           ((pc x = PcWait msg rest ∨ pc x = PcPublish msg rest) ∧
            emitted x = emitted h) ∨
           (∃ tail, emitted x = emitted h ++ msg :: tail)))
    with (h:=h) (h':=h') (sched:=sched); [|by left; split; [left|]|done].
  clear. intros e h1 h2 [[Hpc Hem]|[tail Hem]] Hs.
  - destruct e;
      try (match type of Hs with
           | step ?e' _ = _ =>
               destruct (step_other_pc e' h1 h2 ltac:(done) Hs)
                 as (Hp & He & _)
           end; left; by rewrite Hp, He).
    injection Hs as <-. unfold worker_step.
    destruct Hpc as [Hpc|Hpc]; rewrite Hpc.
    + destruct (wait_is_over msg h1); simpl; left; split; auto.
    + right. exists []. simpl. by rewrite Hem.
  - right. apply step_emitted in Hs as [l ->]. rewrite Hem.
    exists (tail ++ l). by rewrite <- app_assoc.
Qed.

(** C1, evaluated on the code.  In scenario S3 the worker is in the timed
    wait before the third message when [Stop] is called at 120 ms; the wait
    ends, and the third message is emitted (at 120 ms instead of 250 ms)
    before the worker sees [stop] at the head of its loop.  After that
    [finished] is true and the caller blocked in [WaitUntilFinished] has
    returned.  The second part says that this is so in every schedule: a
    worker that has entered the wait before a message and has run to its end
    has emitted that message. *)
Theorem S3_third_message_is_emitted :
  (pc <$> session_of S2_log {["/foo"]} 0 (take 11 S3_schedule))
    = Some (PcWait (foo_at 250000000) []) ∧
  (stop <$> session_of S2_log {["/foo"]} 0 (take 11 S3_schedule))
    = Some true ∧
  (emitted <$> session_of S2_log {["/foo"]} 0 (take 11 S3_schedule))
    = Some [foo_at 0; foo_at 100000000] ∧
  session_of S2_log {["/foo"]} 0 S3_schedule = Some (S3_session 0) ∧
  emitted (S3_session 0) = [foo_at 0; foo_at 100000000; foo_at 250000000] ∧
  clock (S3_session 0) = 120000000 ∧
  Finished (S3_session 0) = true ∧
  (∀ sched h h' msg rest,
     pc h = PcWait msg rest → run sched h = Some h' → pc h' = PcDone →
     ∃ tail, emitted h' = emitted h ++ msg :: tail).
Proof.
  unfold session_of. rewrite S2_session_New.
  repeat (split; [by vm_compute|]).
  intros sched h h' msg rest Hpc Hrun Hdone.
  destruct (wait_leads_to_publication sched h h' msg rest Hpc Hrun)
    as [[[Hp|Hp] _]|Ht]; [congruence|congruence|done].
Qed.

End stop_in_the_wait.

(** ** The factory and its handles *)

Section factory.

Import Playback.

Implicit Types (p : Implementation) (s : System) (x : Action).

Lemma apply_op_lastHandle op p : lastHandle (apply_op op p) = lastHandle p.
Proof.
  destruct op as [t|re|t|re|]; simpl.
  - unfold AddTopic. simpl. destruct (Valid (logFile p)); simpl; [|done].
    by destruct (_ !! t).
  - unfold AddTopicRegex. simpl. destruct (Valid (logFile p)); simpl; [|done].
    by destruct (foldl _ _ _).
  - unfold DefaultToAllTopics. by destruct (negb _).
  - unfold RemoveTopicRegex. destruct (foldl _ _ _). simpl.
    unfold DefaultToAllTopics. by destruct (negb _).
  - unfold DefaultToAllTopics. by destruct (negb _).
Qed.

(** The two ways in which [Start] returns. *)
Lemma Start_cases (ts : bool) (wait : Z) p (hp : Heap) o :
  Start ts wait p hp = Some o →
  (ret o = None ∧ post o = (p, hp) ∧
   (Valid (logFile p) = false ∨ negb ts && last_handle_busy p hp = true)) ∨
  (∃ h warn,
     Valid (logFile p) = true ∧
     negb ts && last_handle_busy p hp = false ∧
     PlaybackHandle.New (logFile p) (Start_topics p).1 wait = Some (h, warn) ∧
     ret o = Some (nextHandle hp) ∧
     post o = (if negb ts then set_lastHandle (Some (nextHandle hp)) p else p,
               mkHeap (<[nextHandle hp := h]> (handles hp))
                 (S (nextHandle hp)))).
Proof.
  unfold Start. destruct (Valid (logFile p)) eqn:Hv; simpl.
  - destruct (negb ts && last_handle_busy p hp) eqn:Hb.
    + intros [= <-]. left. simpl. auto.
    + destruct (Start_topics p) as [topics dbg]. simpl.
      destruct (PlaybackHandle.New _ _ _) as [[h warn]|] eqn:Hn; [|done].
      simpl. intros [= <-]. right. exists h, warn. simpl. by repeat split.
  - intros [= <-]. left. simpl. auto.
Qed.

Lemma Start_refuses (wait : Z) p (hp : Heap) last :
  Valid (logFile p) = true →
  lock (lastHandle p) hp = Some last →
  PlaybackHandle.Finished last = false →
  Start false wait p hp = Some (mkOutcome None (p, hp) one_handle_warning).
Proof.
  intros Hv Hl Hf. unfold Start, last_handle_busy. by rewrite Hv, Hl, Hf.
Qed.

Lemma Start_issues (ts : bool) (wait : Z) p (hp : Heap) :
  Valid (logFile p) = true →
  negb ts && last_handle_busy p hp = false →
  topicNames p ⊆ descriptor_topics (logFile p) →
  ∃ o h warn,
    Start ts wait p hp = Some o ∧
    PlaybackHandle.New (logFile p) (Start_topics p).1 wait = Some (h, warn) ∧
    ret o = Some (nextHandle hp) ∧
    post o = (if negb ts then set_lastHandle (Some (nextHandle hp)) p else p,
              mkHeap (<[nextHandle hp := h]> (handles hp))
                (S (nextHandle hp))).
Proof.
  intros Hv Hb Hsub.
  destruct (Start_is_Some ts wait p hp Hsub) as [o Ho]. exists o.
  destruct (Start_cases ts wait p hp o Ho)
    as [(_ & _ & [Hc|Hc])|(h & warn & _ & _ & Hn & Hr & Hp)];
    [congruence|congruence|]. by exists h, warn.
Qed.

Lemma boot_inv (log : Log) : system_inv log (boot log).
Proof.
  unfold system_inv, boot. simpl.
  split; [done|]. split; [set_solver|]. split; [done|]. split; [|done].
  intros a [h Hh]. by rewrite lookup_empty in Hh.
Qed.

Lemma act_inv (log : Log) x s s' :
  system_inv log s → act false x s = Some s' → system_inv log s'.
Proof.
  intros (Hl & Hsub & Hlast & Hkeys & Hrecent). subst log. destruct x; simpl.
  - intros [= <-]. unfold system_inv. simpl.
    rewrite apply_op_logFile, apply_op_lastHandle.
    split; [done|]. split; [by apply apply_op_within|]. done.
  - destruct (Start false wait (factory s) (heap s)) as [o|] eqn:Ho; [|done].
    simpl. intros [= <-]. unfold system_inv. simpl.
    apply Start_cases in Ho
      as [(-> & -> & _)|(h & warn & Hv & _ & _ & -> & ->)]; simpl.
    + done.
    + split; [done|]. split; [done|]. split; [done|]. split.
      * intros a [h' Hh']. destruct (decide (a = nextHandle (heap s))) as [->|Hne].
        -- lia.
        -- rewrite lookup_insert_ne in Hh' by done.
           assert (a < nextHandle (heap s))%nat by (apply Hkeys; eauto). lia.
      * intros a [= <-]. split; [lia|done].
  - destruct (handles (heap s) !! a) as [h|] eqn:Hh; [|done]. simpl.
    destruct (PlaybackHandle.step e h) as [h'|]; [|done]. simpl.
    intros [= <-]. unfold system_inv. simpl.
    split; [done|]. split; [done|]. split; [done|]. split; [|done].
    intros b [hb Hb]. destruct (decide (b = a)) as [->|Hne].
    + apply Hkeys. eauto.
    + rewrite lookup_insert_ne in Hb by done. apply Hkeys. eauto.
  - intros [= <-]. unfold system_inv, release. simpl.
    split; [done|]. split; [done|]. split; [done|]. split; [|done].
    intros b [hb Hb]. apply lookup_delete_Some in Hb as [_ Hb].
    apply Hkeys. eauto.
Qed.

Lemma act_all_inv (log : Log) (acts : list Action) s s' :
  system_inv log s → act_all false acts s = Some s' → system_inv log s'.
Proof.
  revert s. induction acts as [|x acts IH]; intros s Hi; simpl.
  - by intros [= <-].
  - destruct (act false x s) as [s1|] eqn:Hx; [|done].
    apply IH. by eapply act_inv.
Qed.

(** C6: with a single-threaded sqlite3, whatever the program did since it
    opened the log: while the handle that [Start] issued last is alive and
    not finished, [Start] warns, returns no handle and changes nothing; once
    that handle is gone or finished, [Start] returns a new handle. *)
Theorem Start_one_handle_at_a_time (log : Log) (acts : list Action) s
    (wait : Z) (a : nat) :
  act_all false acts (boot log) = Some s →
  most_recent (started s) = Some a →
  (∀ last, handles (heap s) !! a = Some last →
           PlaybackHandle.Finished last = false →
           Start false wait (factory s) (heap s)
           = Some (mkOutcome None (factory s, heap s) one_handle_warning)) ∧
  ((handles (heap s) !! a = None ∨
    ∃ last, handles (heap s) !! a = Some last ∧
            PlaybackHandle.Finished last = true) →
   ∃ o a' h,
     Start false wait (factory s) (heap s) = Some o ∧
     ret o = Some a' ∧ a' ≠ a ∧
     handles (heap s) !! a' = None ∧
     handles (post o).2 !! a' = Some h ∧
     issued h).
Proof.
  intros Hacts Hrecent.
  destruct (act_all_inv log acts (boot log) s (boot_inv log) Hacts)
    as (Hl & Hsub & Hlast & Hkeys & Hrec).
  destruct (Hrec a Hrecent) as [Hlt Hv]. split.
  - intros last Hh Hf. eapply Start_refuses; [by rewrite Hl| |done].
    rewrite Hlast, Hrecent. done.
  - intros Hfree.
    destruct (Start_issues false wait (factory s) (heap s))
      as (o & h & warn & Ho & Hn & Hr & Hp).
    + by rewrite Hl.
    + simpl. unfold last_handle_busy. rewrite Hlast, Hrecent. simpl.
      destruct Hfree as [->|(last & -> & ->)]; done.
    + by rewrite Hl.
    + exists o, (nextHandle (heap s)), h. rewrite Hp. simpl.
      repeat split; try done.
      * lia.
      * destruct (handles (heap s) !! nextHandle (heap s)) eqn:Hn'; [|done].
        assert (nextHandle (heap s) < nextHandle (heap s))%nat
          by (apply Hkeys; eauto). lia.
      * by rewrite lookup_insert_eq.
      * exists log, (Start_topics (factory s)).1, wait, warn.
        rewrite Hl in Hn. done.
Qed.

End factory.

Section factory_scenarios.

Import Playback.

Lemma Start_one_handle_at_a_time_witness :
  act_all false [ActStart 0] (boot S2_log) = Some S6_one_live ∧
  Start false 0 (factory S6_one_live) (heap S6_one_live)
    = Some (mkOutcome None (factory S6_one_live, heap S6_one_live)
              one_handle_warning) ∧
  act_all false [ActStart 0; ActStart 0; ActDrop 0] (boot S2_log)
    = Some S6_dropped ∧
  ∃ o a' h,
    Start false 0 (factory S6_dropped) (heap S6_dropped) = Some o ∧
    ret o = Some a' ∧ a' ≠ 0%nat ∧
    handles (heap S6_dropped) !! a' = None ∧
    handles (post o).2 !! a' = Some h ∧ issued h.
Proof.
  assert (H1 : act_all false [ActStart 0] (boot S2_log) = Some S6_one_live)
    by (vm_compute; reflexivity).
  assert (H2 : act_all false [ActStart 0; ActStart 0; ActDrop 0] (boot S2_log)
               = Some S6_dropped) by (vm_compute; reflexivity).
  split; [exact H1|]. split.
  - apply (proj1 (Start_one_handle_at_a_time S2_log [ActStart 0] S6_one_live
                    0 0%nat H1 eq_refl) S2_session); reflexivity.
  - split; [exact H2|].
    apply (proj2 (Start_one_handle_at_a_time S2_log
                    [ActStart 0; ActStart 0; ActDrop 0] S6_dropped
                    0 0%nat H2 eq_refl)).
    left. reflexivity.
Defined.

End factory_scenarios.

Section more_witnesses.

Lemma S3_third_message_is_emitted_witness :
  PlaybackHandle.run (take 11 S3_schedule) S2_session
    = Some S3_stopped_in_wait ∧
  PlaybackHandle.run (drop 11 S3_schedule) S3_stopped_in_wait
    = Some (S3_session 0) ∧
  ∃ tail,
    PlaybackHandle.emitted (S3_session 0)
    = PlaybackHandle.emitted S3_stopped_in_wait ++ foo_at 250000000 :: tail.
Proof.
  assert (H1 : PlaybackHandle.run (drop 11 S3_schedule) S3_stopped_in_wait
               = Some (S3_session 0)) by (vm_compute; reflexivity).
  split; [vm_compute; reflexivity|]. split; [exact H1|].
  destruct S3_third_message_is_emitted as (_ & _ & _ & _ & _ & _ & _ & H).
  exact (H (drop 11 S3_schedule) S3_stopped_in_wait (S3_session 0)
           (foo_at 250000000) [] eq_refl H1 eq_refl).
Defined.

Lemma selector_within_descriptor_witness :
  is_Some (PlaybackHandle.AddTopic "/foo" (PlaybackHandle.Init foo_bar_log)).
Proof.
  destruct (selector_within_descriptor foo_bar_log [Playback.OpAddTopic "/foo"])
    as (_ & _ & _ & _ & H).
  apply H; [|reflexivity]. vm_compute. reflexivity.
Defined.

End more_witnesses.

(** * Further properties of the code *)

(** ** The subtractive mutators and the composition of mutators *)

Section selector_more.

Import Playback.

Implicit Types (p : Implementation) (s : gset string).

Lemma DefaultToAllTopics_selection p :
  DefaultToAllTopics p = mkImpl (logFile p) (selection p) true (lastHandle p).
Proof.
  unfold selection. destruct (addTopicWasUsed p) eqn:Hf.
  - rewrite DefaultToAllTopics_used by done. destruct p. simpl in *. by subst.
  - by rewrite DefaultToAllTopics_unused.
Qed.

Lemma filter_of_elements (P : string → Prop) `{!∀ x, Decision (P x)} s :
  list_to_set (filter P (elements s)) = (filter P s : gset string).
Proof.
  apply leibniz_equiv, set_equiv. intros x.
  rewrite elem_of_list_to_set, list_elem_of_filter, elem_of_filter,
    elem_of_elements. done.
Qed.

(** X1: [RemoveTopic] with a regex erases from the selection exactly the
    names that the pattern matches as a whole, and returns how many they
    were. *)
Theorem RemoveTopicRegex_spec (re : regex) p :
  let o := RemoveTopicRegex re p in
  let gone := filter (λ t, regex_match t re = true) (selection p) in
  topicNames (post o) = selection p ∖ gone ∧
  (∀ t, t ∈ topicNames (post o) ↔
        t ∈ selection p ∧ regex_match t re = false) ∧
  ret o = Z.of_nat (size gone) ∧
  Z.of_nat (size (topicNames (post o))) + ret o
    = Z.of_nat (size (selection p)) ∧
  addTopicWasUsed (post o) = true ∧
  logFile (post o) = logFile p ∧
  console o = [].
Proof.
  simpl. unfold RemoveTopicRegex. rewrite DefaultToAllTopics_selection.
  cbn [topicNames]. rewrite remove_regex_loop, filter_of_elements.
  cbn [post ret console set_topicNames topicNames addTopicWasUsed logFile].
  set (gone := filter (λ t, regex_match t re = true) (selection p)).
  assert (Hlen : length (filter (λ t, regex_match t re = true)
                           (elements (selection p))) = size gone).
  { unfold gone. rewrite <- filter_of_elements. symmetry.
    apply size_list_to_set, NoDup_filter, NoDup_elements. }
  assert (Hsub : gone ⊆ selection p) by (unfold gone; set_solver).
  split; [done|]. split.
  { intros t. unfold gone. rewrite elem_of_difference, elem_of_filter.
    destruct (regex_match t re); naive_solver. }
  split; [lia|]. split; [|done].
  rewrite Hlen, size_difference by done.
  apply subseteq_size in Hsub. lia.
Qed.

(** X2: [RemoveTopic] with a literal name takes the name out of the
    selection and leaves the other names; it returns true exactly when the
    name was selected, and a second call for the same name returns false and
    changes nothing. *)
Theorem RemoveTopic_spec (X : string) p :
  let o := RemoveTopic X p in
  topicNames (post o) = selection p ∖ {[X]} ∧
  (ret o = true ↔ X ∈ selection p) ∧
  addTopicWasUsed (post o) = true ∧
  RemoveTopic X (post o) = mkOutcome false (post o) [].
Proof.
  simpl. unfold RemoveTopic. rewrite DefaultToAllTopics_selection.
  cbn [post ret topicNames set_topicNames addTopicWasUsed].
  split; [done|]. split; [apply bool_decide_eq_true|]. split; [done|].
  rewrite DefaultToAllTopics_used by done.
  cbn [post ret topicNames set_topicNames addTopicWasUsed logFile lastHandle].
  f_equal.
  - apply bool_decide_eq_false. set_solver.
  - unfold set_topicNames. simpl. f_equal. set_solver.
Qed.

(** X3: on a valid log, [AddTopic(name)] followed by [AddTopic(regex)]
    leaves a selection made of what the set held before, of the name if the
    descriptor has it, and of the descriptor's names that the pattern
    matches; on a factory that was not touched before, that is the snapshot
    of scenario S4. *)
Theorem AddTopic_then_AddTopicRegex (name : string) (re : regex) p :
  Valid (logFile p) = true →
  let p' := post (AddTopicRegex re (post (AddTopic name p))) in
  let m := TopicsToMsgTypesToId (LogDescriptor (logFile p)) in
  (Start_topics p').1
  = matching re m ∪ ({[name]} ∩ descriptor_topics (logFile p)) ∪ topicNames p ∧
  (ret (AddTopic name p) = true ↔ name ∈ descriptor_topics (logFile p)).
Proof.
  intros Hv. simpl.
  assert (Hlog : logFile (post (AddTopic name p)) = logFile p)
    by apply (apply_op_logFile (OpAddTopic name)).
  rewrite Start_topics_used by apply (apply_op_flag (OpAddTopicRegex re)).
  rewrite AddTopicRegex_valid by (by rewrite Hlog).
  cbn [post topicNames]. rewrite Hlog.
  unfold AddTopic, descriptor_topics. simpl. rewrite Hv. simpl.
  destruct (TopicsToMsgTypesToId (LogDescriptor (logFile p)) !! name) eqn:Hn;
    simpl.
  - assert (name ∈ dom (TopicsToMsgTypesToId (LogDescriptor (logFile p))))
      by (apply elem_of_dom; eauto).
    split; [set_solver|done].
  - apply not_elem_of_dom in Hn. split; [set_solver|]. split; [done|].
    intros Hin. by destruct Hn.
Qed.

Lemma AddTopic_then_AddTopicRegex_witness :
  (Start_topics
     (post (AddTopicRegex any_topic (post (AddTopic "/foo" (New foo_bar_log)))))).1
  = matching any_topic (TopicsToMsgTypesToId (LogDescriptor foo_bar_log))
    ∪ ({["/foo"]} ∩ descriptor_topics foo_bar_log) ∪ ∅.
Proof.
  exact (proj1 (AddTopic_then_AddTopicRegex "/foo" any_topic (New foo_bar_log)
                  eq_refl)).
Defined.

End selector_more.

(** ** The factory in its edge cases *)

Section factory_more.

Import Playback.

Implicit Types (p : Implementation) (s : System) (x : Action).

Lemma QueryMessages_no_topic (log : Log) : QueryMessages log ∅ = [].
Proof.
  unfold QueryMessages. generalize (Rows log). intros l.
  replace (filter _ l) with (@nil Message); [done|].
  symmetry. induction l as [|m l IH]; [done|].
  rewrite filter_cons_False by set_solver. done.
Qed.

(** X4: on a valid log, an [AddTopic] for a name that the log does not
    have leaves the selection empty, not defaulted to all topics: [Start]
    still issues a handle, the constructor warns that there is nothing to
    play, no publisher is advertised, and the worker ends after five steps
    without ever emitting a message. *)
Theorem failed_AddTopic_plays_nothing (name : string) (log : Log) (ts : bool)
    (wait : Z) (hp : Heap) :
  Valid log = true →
  name ∉ descriptor_topics log →
  let p := post (AddTopic name (New log)) in
  ret (AddTopic name (New log)) = false ∧
  (Start_topics p).1 = ∅ ∧
  ∃ o h h_end,
    Start ts wait p hp = Some o ∧
    ret o = Some (nextHandle hp) ∧
    console o = no_messages_warning ∧
    handles (post o).2 !! nextHandle hp = Some h ∧
    PlaybackHandle.publishers h = ∅ ∧
    PlaybackHandle.run (replicate 5 PlaybackHandle.EvWorker) h = Some h_end ∧
    PlaybackHandle.pc h_end = PlaybackHandle.PcDone ∧
    PlaybackHandle.Finished h_end = true ∧
    (∀ sched h', PlaybackHandle.run sched h = Some h' →
                 PlaybackHandle.emitted h' = []).
Proof.
  intros Hv Hn. simpl.
  assert (Ho : AddTopic name (New log)
               = mkOutcome false (mkImpl log ∅ true None)
                   [LWRN ("Topic [" +:+ name +:+ "] is not in the log")]).
  { unfold AddTopic, descriptor_topics in *. simpl. rewrite Hv. simpl.
    apply not_elem_of_dom in Hn. by rewrite Hn. }
  rewrite Ho. cbn [post ret]. split; [done|]. split; [done|].
  unfold Start, last_handle_busy, lock. cbn [logFile lastHandle mbind option_bind].
  rewrite Hv, andb_false_r. cbn [negb].
  unfold Start_topics. cbn [addTopicWasUsed negb topicNames].
  unfold PlaybackHandle.New. rewrite elements_empty. cbn [foldl mbind option_bind].
  rewrite QueryMessages_no_topic.
  eexists _, _, _. split; [reflexivity|]. cbn [post ret console snd].
  split; [reflexivity|]. split; [reflexivity|].
  split; [apply lookup_insert_eq|].
  split; [reflexivity|]. split; [reflexivity|]. split; [reflexivity|].
  split; [reflexivity|].
  intros sched h' Hrun.
  assert (Hpre : PlaybackHandle.emitted h' `prefix_of` []).
  { apply trail_prefix.
    eapply (run_ind (trail [])); [apply step_trail| |exact Hrun]. done. }
  by apply prefix_nil_inv.
Qed.

Lemma failed_AddTopic_plays_nothing_witness :
  (Start_topics (post (AddTopic "/baz" (New foo_bar_log)))).1 = ∅.
Proof.
  refine (proj1 (proj2 (failed_AddTopic_plays_nothing "/baz" foo_bar_log true 0
                          (mkHeap ∅ 0) eq_refl _))).
  unfold descriptor_topics. simpl. rewrite !dom_insert_L.
  intros Hin. repeat (apply elem_of_union in Hin as [Hin|Hin]);
    try (apply elem_of_singleton in Hin; discriminate Hin).
  by apply elem_of_dom in Hin as [? ?].
Defined.

Lemma act_factory_inv (ts : bool) (log : Log) x s s' :
  factory_inv log s → act ts x s = Some s' → factory_inv log s'.
Proof.
  intros (Hl & Hsub & Hkeys). subst log. destruct x; simpl.
  - intros [= <-]. unfold factory_inv. simpl. rewrite apply_op_logFile.
    split; [done|]. split; [by apply apply_op_within|done].
  - destruct (Start ts wait (factory s) (heap s)) as [o|] eqn:Ho; [|done].
    simpl. intros [= <-]. unfold factory_inv. simpl.
    apply Start_cases in Ho
      as [(_ & -> & _)|(h & warn & Hv & _ & _ & _ & ->)]; simpl; [done|].
    split; [by destruct (negb ts)|]. split; [by destruct (negb ts)|].
    intros a [h' Hh']. destruct (decide (a = nextHandle (heap s))) as [->|Hne].
    + lia.
    + rewrite lookup_insert_ne in Hh' by done.
      assert (a < nextHandle (heap s))%nat by (apply Hkeys; eauto). lia.
  - destruct (handles (heap s) !! a) as [h|] eqn:Hh; [|done]. simpl.
    destruct (PlaybackHandle.step e h) as [h'|]; [|done]. simpl.
    intros [= <-]. unfold factory_inv. simpl.
    split; [done|]. split; [done|].
    intros b [hb Hb]. destruct (decide (b = a)) as [->|Hne].
    + apply Hkeys. eauto.
    + rewrite lookup_insert_ne in Hb by done. apply Hkeys. eauto.
  - intros [= <-]. unfold factory_inv, release. simpl.
    split; [done|]. split; [done|].
    intros b [hb Hb]. apply lookup_delete_Some in Hb as [_ Hb].
    apply Hkeys. eauto.
Qed.

(** Something that every action keeps, holds after every sequence. *)
Lemma act_all_ind (ts : bool) (P : System → Prop) :
  (∀ x s s', P s → act ts x s = Some s' → P s') →
  ∀ acts s s', P s → act_all ts acts s = Some s' → P s'.
Proof.
  intros Hstep acts. induction acts as [|x acts IH]; intros s s' HP; simpl.
  - by intros [= <-].
  - destruct (act ts x s) as [s1|] eqn:Hx; [|done]. eauto.
Qed.

Lemma boot_factory_inv (log : Log) : factory_inv log (boot log).
Proof.
  unfold factory_inv, boot. simpl. split; [done|]. split; [set_solver|].
  intros a [h Hh]. by rewrite lookup_empty in Hh.
Qed.

(** X5: on a log that is not valid, nothing the program does ever brings a
    handle about: every [Start] returns no handle, reports the error and
    changes nothing, in either configuration of sqlite3. *)
Theorem no_handle_on_invalid_log (ts : bool) (log : Log) (acts : list Action)
    s (wait : Z) :
  Valid log = false →
  act_all ts acts (boot log) = Some s →
  handles (heap s) = ∅ ∧
  most_recent (started s) = None ∧
  Start ts wait (factory s) (heap s)
  = Some (mkOutcome None (factory s, heap s) could_not_start).
Proof.
  intros Hv Hacts.
  assert (Hinv : logFile (factory s) = log ∧ handles (heap s) = ∅ ∧
                 most_recent (started s) = None).
  { revert Hacts. apply (act_all_ind ts (λ s, logFile (factory s) = log ∧
        handles (heap s) = ∅ ∧ most_recent (started s) = None)); [|done].
    clear s. intros x s s' (Hl & Hh & Hm). destruct x; simpl.
    - intros [= <-]. simpl. by rewrite apply_op_logFile.
    - unfold Start. rewrite Hl, Hv. simpl. by intros [= <-].
    - by rewrite Hh, lookup_empty.
    - intros [= <-]. unfold release. simpl. rewrite Hh.
      split; [done|]. split; [apply delete_empty|done]. }
  destruct Hinv as (Hl & Hh & Hm). split; [done|]. split; [done|].
  unfold Start. by rewrite Hl, Hv.
Qed.

Lemma no_handle_on_invalid_log_witness :
  Start false 0 (New unopened_log) (mkHeap ∅ 0)
  = Some (mkOutcome None (New unopened_log, mkHeap ∅ 0) could_not_start).
Proof.
  exact (proj2 (proj2 (no_handle_on_invalid_log false unopened_log []
                         (boot unopened_log) 0 eq_refl eq_refl))).
Defined.

(** X6: with a thread-safe sqlite3 and a valid log, [Start] never refuses,
    whatever handles are alive: it issues a handle at a new address, leaves
    the handles already there as they are, and does not record the handle in
    the factory. *)
Theorem Start_threadsafe_always_issues (log : Log) (acts : list Action) s
    (wait : Z) :
  Valid log = true →
  act_all true acts (boot log) = Some s →
  ∃ o h,
    Start true wait (factory s) (heap s) = Some o ∧
    ret o = Some (nextHandle (heap s)) ∧
    handles (heap s) !! nextHandle (heap s) = None ∧
    handles (post o).2 !! nextHandle (heap s) = Some h ∧
    issued h ∧
    (∀ a, a ≠ nextHandle (heap s) →
          handles (post o).2 !! a = handles (heap s) !! a) ∧
    (post o).1 = factory s ∧
    lastHandle (factory s) = None.
Proof.
  intros Hv Hacts.
  pose proof (act_all_ind true (factory_inv log) (act_factory_inv true log)
                acts (boot log) s (boot_factory_inv log) Hacts)
    as (Hl & Hsub & Hkeys).
  assert (Hlast : lastHandle (factory s) = None).
  { revert Hacts. apply (act_all_ind true (λ s, lastHandle (factory s) = None));
      [|done].
    clear. intros x s s' Hn. destruct x; simpl.
    - intros [= <-]. simpl. by rewrite apply_op_lastHandle.
    - destruct (Start true wait (factory s) (heap s)) as [o|] eqn:Ho; [|done].
      simpl. intros [= <-]. simpl.
      by apply Start_cases in Ho
        as [(_ & -> & _)|(h & warn & _ & _ & _ & _ & ->)].
    - destruct (handles (heap s) !! a); [|done]. simpl.
      destruct (PlaybackHandle.step e _); [|done]. simpl. by intros [= <-].
    - by intros [= <-]. }
  destruct (Start_issues true wait (factory s) (heap s))
    as (o & h & warn & Ho & Hn & Hr & Hp); [by rewrite Hl|done|by rewrite Hl|].
  exists o, h. rewrite Hp. simpl. split; [done|]. split; [done|].
  split.
  { destruct (handles (heap s) !! nextHandle (heap s)) eqn:Hn'; [|done].
    assert (nextHandle (heap s) < nextHandle (heap s))%nat
      by (apply Hkeys; eauto). lia. }
  split; [by rewrite lookup_insert_eq|]. split.
  { exists log, (Start_topics (factory s)).1, wait, warn.
    rewrite Hl in Hn. done. }
  split; [|done]. intros a Ha. by rewrite lookup_insert_ne.
Qed.

Lemma Start_threadsafe_always_issues_witness :
  ∃ o h,
    Start true 0 (factory (boot S2_log)) (heap (boot S2_log)) = Some o ∧
    ret o = Some 0%nat ∧
    handles (post o).2 !! 0%nat = Some h.
Proof.
  destruct (Start_threadsafe_always_issues S2_log [] (boot S2_log) 0
              eq_refl eq_refl) as (o & h & Ho & Hr & _ & Hh & _).
  exists o, h. split; [exact Ho|]. split; [exact Hr|exact Hh].
Defined.

End factory_more.

Section one_at_a_time.

Import Playback.

Implicit Types (s : System) (x : Action).

Lemma act_handles_inv (log : Log) x s s' :
  system_inv log s → handles_inv s → act false x s = Some s' → handles_inv s'.
Proof.
  intros (Hl & Hsub & Hlast & Hkeys & Hrecent) Hinv. destruct x; simpl.
  - intros [= <-]. exact Hinv.
  - destruct (Start false wait (factory s) (heap s)) as [o|] eqn:Ho; [|done].
    simpl. intros [= <-]. unfold handles_inv. simpl.
    apply Start_cases in Ho
      as [(-> & -> & _)|(h & warn & Hv & Hb & Hn & -> & ->)]; simpl.
    + exact Hinv.
    + intros a h'. destruct (decide (a = nextHandle (heap s))) as [->|Hne].
      * rewrite lookup_insert_eq. intros [= <-]. split; [|done].
        apply issued_inv. by eexists _, _, _, _.
      * rewrite lookup_insert_ne by done. intros Hh'.
        destruct (Hinv a h' Hh') as [Hs Hf]. split; [done|]. intros _.
        destruct (decide (most_recent (started s) = Some a)) as [Hm|Hm];
          [|by apply Hf].
        unfold last_handle_busy, lock in Hb. rewrite Hlast, Hm in Hb.
        simpl in Hb. rewrite Hh' in Hb. unfold PlaybackHandle.Finished in Hb.
        by destruct (PlaybackHandle.finished h').
  - destruct (handles (heap s) !! a) as [h|] eqn:Hh; [|done]. simpl.
    destruct (PlaybackHandle.step e h) as [h'|] eqn:Hs; [|done]. simpl.
    intros [= <-]. unfold handles_inv. simpl. intros b hb.
    destruct (decide (b = a)) as [->|Hne].
    + rewrite lookup_insert_eq. intros [= <-].
      destruct (Hinv a h Hh) as [Hsi Hf]. split; [by eapply step_inv|].
      intros Hm. eapply step_finished; [done| |done]. by apply Hf.
    + rewrite lookup_insert_ne by done. apply Hinv.
  - intros [= <-]. unfold handles_inv, release. simpl. intros b hb Hb.
    apply lookup_delete_Some in Hb as [_ Hb]. by apply Hinv.
Qed.

Lemma act_all_handles_inv (log : Log) (acts : list Action) s :
  act_all false acts (boot log) = Some s → system_inv log s ∧ handles_inv s.
Proof.
  apply (act_all_ind false (λ s, system_inv log s ∧ handles_inv s)).
  - intros x s1 s2 [Hs Hh] Hx. split; [by eapply act_inv|].
    by eapply act_handles_inv.
  - split; [apply boot_inv|]. intros a h Hh. simpl in Hh.
    by rewrite lookup_empty in Hh.
Qed.

(** X7: with a single-threaded sqlite3, at no moment are two live handles
    of a factory both unfinished: whatever the program did, a live handle
    other than the one issued last has finished. *)
Theorem one_unfinished_handle_at_a_time (log : Log) (acts : list Action) s
    (a b : nat) (ha hb : PlaybackHandle.Implementation) :
  act_all false acts (boot log) = Some s →
  handles (heap s) !! a = Some ha →
  handles (heap s) !! b = Some hb →
  PlaybackHandle.Finished ha = false →
  PlaybackHandle.Finished hb = false →
  a = b ∧ most_recent (started s) = Some a.
Proof.
  intros Hacts Ha Hb Hfa Hfb.
  destruct (act_all_handles_inv log acts s Hacts) as [_ Hinv].
  destruct (Hinv a ha Ha) as [_ Hma]. destruct (Hinv b hb Hb) as [_ Hmb].
  unfold PlaybackHandle.Finished in *.
  destruct (decide (most_recent (started s) = Some a)) as [Ea|Na];
    [|rewrite Hma in Hfa by done; done].
  destruct (decide (most_recent (started s) = Some b)) as [Eb|Nb];
    [|rewrite Hmb in Hfb by done; done].
  split; [congruence|done].
Qed.

Lemma one_unfinished_handle_at_a_time_witness :
  act_all false [ActStart 0] (boot S2_log) = Some S6_one_live ∧
  most_recent (started S6_one_live) = Some 0%nat.
Proof.
  assert (H1 : act_all false [ActStart 0] (boot S2_log) = Some S6_one_live)
    by (vm_compute; reflexivity).
  split; [exact H1|].
  exact (proj2 (one_unfinished_handle_at_a_time S2_log [ActStart 0] S6_one_live
                  0%nat 0%nat S2_session S2_session H1 eq_refl eq_refl
                  eq_refl eq_refl)).
Defined.

End one_at_a_time.

(** ** The publishers table *)

Section publishers_table.

Import PlaybackHandle.

Implicit Types (h : Implementation)
  (pubs : gmap string (gmap string Publisher)).

Lemma advertises_trans pubs1 pubs2 pubs3 (S1 S2 : string → string → Prop) :
  advertises pubs1 pubs2 S1 → advertises pubs2 pubs3 S2 →
  advertises pubs1 pubs3 (λ T τ, S1 T τ ∨ S2 T τ).
Proof.
  intros H12 H23 T τ x. rewrite (H23 T τ x), (H12 T τ x). split.
  - intros [[Ha|(Ha & HS & ->)]|(Hb & HS & ->)]; [by left|right; auto|].
    right. split; [|auto].
    destruct (publisher_at pubs1 T τ) as [y|] eqn:Hy; [|done].
    assert (publisher_at pubs2 T τ = Some y) by (apply H12; by left).
    congruence.
  - intros [Ha|(Ha & [HS|HS] & ->)]; [by left; left|left; right; auto|].
    destruct (publisher_at pubs2 T τ) as [y|] eqn:Hy; [|right; auto].
    left. apply H12 in Hy as [Hy|(_ & HS1 & ->)]; [congruence|].
    right. auto.
Qed.

Lemma advertises_ext pubs pubs' (S1 S2 : string → string → Prop) :
  (∀ T τ, S1 T τ ↔ S2 T τ) → advertises pubs pubs' S1 → advertises pubs pubs' S2.
Proof.
  intros He Ha T τ x. rewrite (Ha T τ x), (He T τ). done.
Qed.

Lemma advertises_refl pubs : advertises pubs pubs (λ _ _, False).
Proof. intros T τ x. naive_solver. Qed.

Lemma publisher_at_insert pubs (t : string) (second : gmap string Publisher)
    (T τ : string) :
  publisher_at (<[t := second]> pubs) T τ
  = if decide (t = T) then second !! τ else publisher_at pubs T τ.
Proof.
  unfold publisher_at. rewrite lookup_insert. by destruct (decide (t = T)).
Qed.

Lemma CreatePublisher_eq (_topic _type : string) h :
  CreatePublisher _topic _type h =
  match publishers h !! _topic with
  | Some second =>
      match second !! _type with
      | Some _ => h
      | None =>
          set_publishers
            (<[_topic := <[_type := Advertised _topic _type]> second]>
               (publishers h)) h
      end
  | None =>
      set_publishers
        (<[_topic := {[_type := Advertised _topic _type]}]> (publishers h)) h
  end.
Proof.
  unfold CreatePublisher.
  destruct (publishers h !! _topic) as [second|] eqn:Ht.
  - cbn zeta. rewrite Ht. cbn [default from_option id].
    by destruct (second !! _type).
  - cbn zeta. cbn [publishers set_publishers]. rewrite lookup_insert_eq.
    cbn [default from_option id]. rewrite lookup_empty.
    unfold set_publishers. cbn. by rewrite insert_insert_eq, insert_empty.
Qed.

Lemma CreatePublisher_advertises (_topic _type : string) h :
  advertises (publishers h) (publishers (CreatePublisher _topic _type h))
    (λ T τ, T = _topic ∧ τ = _type).
Proof.
  rewrite (CreatePublisher_eq _topic _type h).
  destruct (publishers h !! _topic) as [second|] eqn:Ht;
    [destruct (second !! _type) as [x0|] eqn:Hty|].
  - intros T τ x. split; [intros ?; by left|].
    intros [Hx|(Hn & [-> ->] & _)]; [done|].
    unfold publisher_at in Hn. rewrite Ht in Hn. simpl in Hn. congruence.
  - cbn [publishers set_publishers].
    intros T τ x. rewrite publisher_at_insert.
    destruct (decide (_topic = T)) as [<-|Hne]; [|naive_solver].
    unfold publisher_at. rewrite Ht. simpl. rewrite lookup_insert.
    destruct (decide (_type = τ)) as [<-|Hne2]; [rewrite Hty|]; naive_solver.
  - cbn [publishers set_publishers].
    intros T τ x. rewrite publisher_at_insert.
    destruct (decide (_topic = T)) as [<-|Hne]; [|naive_solver].
    unfold publisher_at. rewrite Ht. simpl. rewrite lookup_singleton.
    destruct (decide (_type = τ)) as [<-|Hne2]; naive_solver.
Qed.

(** X8: [CreatePublisher] advertises a publisher for its pair when the table
    has none for it and changes no publisher that is there; a second call
    for the same pair changes nothing at all. *)
Theorem CreatePublisher_spec (_topic _type : string) h :
  advertises (publishers h) (publishers (CreatePublisher _topic _type h))
    (λ T τ, T = _topic ∧ τ = _type) ∧
  publisher_at (publishers (CreatePublisher _topic _type h)) _topic _type
  = Some (default (Advertised _topic _type)
            (publisher_at (publishers h) _topic _type)) ∧
  CreatePublisher _topic _type (CreatePublisher _topic _type h)
  = CreatePublisher _topic _type h.
Proof.
  split; [apply CreatePublisher_advertises|].
  rewrite (CreatePublisher_eq _topic _type (CreatePublisher _topic _type h)).
  rewrite (CreatePublisher_eq _topic _type h).
  destruct (publishers h !! _topic) as [second|] eqn:Ht;
    [destruct (second !! _type) as [x0|] eqn:Hty|].
  - rewrite Ht, Hty. split; [|done].
    unfold publisher_at. rewrite Ht. simpl. by rewrite Hty.
  - cbn [publishers set_publishers]. rewrite !lookup_insert_eq.
    split; [|done].
    rewrite publisher_at_insert, decide_True by done.
    rewrite lookup_insert_eq. unfold publisher_at. rewrite Ht. simpl.
    by rewrite Hty.
  - cbn [publishers set_publishers]. rewrite !lookup_insert_eq.
    rewrite lookup_singleton_eq. split; [|done].
    rewrite publisher_at_insert, decide_True by done.
    rewrite lookup_singleton_eq. unfold publisher_at. by rewrite Ht.
Qed.

Lemma CreatePublisher_fold_advertises (_topic : string)
    (l : list (string * Z)) h :
  advertises (publishers h)
    (publishers (foldl (λ acc typeEntry, CreatePublisher _topic typeEntry.1 acc)
                   h l))
    (λ T τ, T = _topic ∧ τ ∈ l.*1).
Proof.
  induction l as [|e l IH] using rev_ind.
  - simpl. eapply advertises_ext; [|apply advertises_refl].
    intros T τ. simpl. split; [done|]. intros [_ Hin].
    by apply not_elem_of_nil in Hin.
  - rewrite foldl_app. simpl.
    eapply advertises_ext;
      [|eapply advertises_trans; [exact IH|apply CreatePublisher_advertises]].
    intros T τ. simpl. rewrite fmap_app, elem_of_app. simpl.
    rewrite list_elem_of_singleton. naive_solver.
Qed.

Lemma AddTopic_advertises (_topic : string) h h' :
  AddTopic _topic h = Some h' →
  advertises (publishers h) (publishers h')
    (λ T τ, T = _topic ∧ has_type (logFile h) T τ).
Proof.
  unfold AddTopic.
  destruct (TopicsToMsgTypesToId (LogDescriptor (logFile h)) !! _topic)
    as [types|] eqn:Ht; [|done].
  intros [= <-].
  eapply advertises_ext; [|apply CreatePublisher_fold_advertises].
  intros T τ. simpl. unfold has_type. split.
  - intros [-> Hin]. split; [done|]. exists types. split; [done|].
    apply list_elem_of_fmap in Hin as [[k v] [-> Hin]].
    apply elem_of_map_to_list in Hin. by exists v.
  - intros [-> (types' & Ht' & [v Hv])]. split; [done|].
    rewrite Ht in Ht'. injection Ht' as <-.
    apply list_elem_of_fmap. exists (τ, v). split; [done|].
    by apply elem_of_map_to_list.
Qed.

Lemma AddTopic_fold_advertises (l : list string) h h' :
  foldl (λ acc topic, acc ≫= AddTopic topic) (Some h) l = Some h' →
  advertises (publishers h) (publishers h')
    (λ T τ, T ∈ l ∧ has_type (logFile h) T τ).
Proof.
  revert h'. induction l as [|t l IH] using rev_ind; intros h'.
  - intros [= <-]. eapply advertises_ext; [|apply advertises_refl].
    intros T τ. simpl. split; [done|]. intros [Hin _].
    by apply not_elem_of_nil in Hin.
  - rewrite foldl_app. simpl.
    destruct (foldl _ (Some h) l) as [h1|] eqn:Hf; [|done]. simpl. intros Ha.
    pose proof (AddTopic_fold_frame l h h1 Hf) as (Hl & _).
    eapply advertises_ext;
      [|eapply advertises_trans; [exact (IH h1 eq_refl)|
                                  exact (AddTopic_advertises t h1 h' Ha)]].
    intros T τ. simpl. rewrite Hl, elem_of_app, list_elem_of_singleton.
    naive_solver.
Qed.

Lemma New_table (log : Log) (topics : gset string) (wait : Z) h diag :
  New log topics wait = Some (h, diag) →
  ∀ T τ x, publisher_at (publishers h) T τ = Some x ↔
           T ∈ topics ∧ has_type log T τ ∧ x = Advertised T τ.
Proof.
  unfold New.
  destruct (foldl _ (Some (Init log)) (elements topics)) as [h1|] eqn:Hf;
    [|done].
  simpl. intros [= <- _]. simpl.
  apply AddTopic_fold_advertises in Hf. simpl in Hf.
  intros T τ x. rewrite (Hf T τ x). unfold publisher_at at 1 2.
  rewrite lookup_empty. simpl. rewrite elem_of_elements. naive_solver.
Qed.

(** X9: the constructor leaves a table that holds a publisher for a topic
    and a type exactly when the topic is in the snapshot and the descriptor
    records the type for it, and that publisher is the one advertised for
    the pair; the table is complete before the worker has entered its
    loop. *)
Theorem New_publishers (log : Log) (topics : gset string) (wait : Z) h diag :
  New log topics wait = Some (h, diag) →
  (∀ T τ x, publisher_at (publishers h) T τ = Some x ↔
            T ∈ topics ∧ has_type log T τ ∧ x = Advertised T τ) ∧
  pc h = PcStart (QueryMessages log topics) ∧
  emitted h = [].
Proof.
  intros Hnew.
  destruct (New_shape log topics wait h diag Hnew)
    as (_ & _ & _ & Hpc & Hem & _).
  split; [|done]. by eapply New_table.
Qed.

Lemma New_publishers_witness :
  publisher_at (publishers S2_session) "/foo" ".msg.foo"
  = Some (Advertised "/foo" ".msg.foo").
Proof.
  apply (proj1 (New_publishers S2_log {["/foo"]} 0 S2_session
                  S2_construction_console S2_session_New)).
  split; [by apply elem_of_singleton|]. split; [|reflexivity].
  exists {[".msg.foo" := 1]}. split; [reflexivity|].
  exists 1. reflexivity.
Defined.

End publishers_table.

Section table_frozen.

Import PlaybackHandle.

Implicit Types (h : Implementation) (e : Event) (sched : list Event)
  (pubs : gmap string (gmap string Publisher)).

Lemma index_publishers_present pubs (topic type : string) :
  is_Some (publisher_at pubs topic type) →
  index_publishers topic type pubs = pubs.
Proof.
  unfold publisher_at, index_publishers. intros [x Hx].
  destruct (pubs !! topic) as [second|] eqn:Ht; [|done]. simpl in *.
  rewrite Hx. by apply insert_id.
Qed.

Lemma index_publishers_absent pubs (topic type : string) (T τ : string) :
  publisher_at pubs topic type = None →
  publisher_at (index_publishers topic type pubs) T τ
  = if decide (topic = T ∧ type = τ) then Some NoPublisher
    else publisher_at pubs T τ.
Proof.
  unfold index_publishers. intros Hn.
  assert (Hs : default ∅ (pubs !! topic) !! type = None).
  { unfold publisher_at in Hn. by destruct (pubs !! topic). }
  rewrite Hs, publisher_at_insert.
  destruct (decide (topic = T)) as [<-|Hne].
  - rewrite lookup_insert. destruct (decide (type = τ)) as [<-|Hne2].
    + by rewrite decide_True.
    + rewrite decide_False by naive_solver.
      unfold publisher_at. by destruct (pubs !! topic).
  - by rewrite decide_False by naive_solver.
Qed.

Lemma step_publishers e h h' :
  step e h = Some h' →
  (∀ msg rest, pc h = PcPublish msg rest →
               is_Some (publisher_at (publishers h) (Topic msg) (Type_ msg))) →
  publishers h' = publishers h.
Proof.
  destruct e; simpl.
  - intros [= <-] Hp. unfold worker_step.
    destruct (pc h) as [|b|[|m r]|m r|m r| | | |] eqn:Hpc; simpl; try done.
    + destruct (stop h); [done|]. by destruct (publishedFirstMessage h).
    + by destruct (wait_is_over m h).
    + by apply index_publishers_present, (Hp m r).
  - destruct (0 <=? d); [|done]. by intros [= <-].
  - intros [= <-] _. unfold Stop_enter.
    destruct (negb _); [done|]. by destruct (joinable _).
  - destruct (joining h); [done|]. destruct (pc h); try done.
    by intros [= <-].
  - intros [= <-] _. unfold WaitUntilFinished_enter. by destruct (_ && _).
  - destruct (waiting h); [done|]. destruct (finished h); [|done].
    by intros [= <-].
Qed.

Lemma trail_next batch h msg rest :
  trail batch h → pc h = PcPublish msg rest → msg ∈ batch.
Proof.
  unfold trail. intros Ht Hpc. rewrite Hpc in Ht. rewrite <- Ht.
  apply elem_of_app. right. by left.
Qed.

Lemma QueryMessages_elem (log : Log) (topics : gset string) (m : Message) :
  m ∈ QueryMessages log topics ↔ m ∈ Rows log ∧ Topic m ∈ topics.
Proof.
  unfold QueryMessages. rewrite merge_sort_Permutation, list_elem_of_filter.
  naive_solver.
Qed.

Lemma New_trail (log : Log) (topics : gset string) (wait : Z) h0 diag sched h :
  New log topics wait = Some (h0, diag) →
  run sched h0 = Some h →
  trail (QueryMessages log topics) h.
Proof.
  intros Hnew. apply (run_ind (trail (QueryMessages log topics))).
  - intros e x x' Ht Hs. by eapply step_trail.
  - apply New_shape in Hnew as (_ & _ & _ & Hpc & Hem & _).
    unfold trail. by rewrite Hpc.
Qed.

Lemma typed_rows_have_publishers (log : Log) (topics : gset string) (wait : Z)
    h0 diag :
  rows_typed log →
  New log topics wait = Some (h0, diag) →
  ∀ m, m ∈ QueryMessages log topics →
       publisher_at (publishers h0) (Topic m) (Type_ m)
       = Some (Advertised (Topic m) (Type_ m)).
Proof.
  intros Htyped Hnew m [Hrow Hin]%QueryMessages_elem.
  apply (New_table log topics wait h0 diag Hnew).
  split; [done|]. split; [by apply Htyped|done].
Qed.

Lemma run_keeps_table (log : Log) (topics : gset string) (wait : Z)
    h0 diag sched h :
  rows_typed log →
  New log topics wait = Some (h0, diag) →
  run sched h0 = Some h →
  publishers h = publishers h0.
Proof.
  intros Htyped Hnew Hrun.
  pose proof (typed_rows_have_publishers log topics wait h0 diag Htyped Hnew)
    as Htable.
  assert (Hinv : trail (QueryMessages log topics) h ∧
                 publishers h = publishers h0); [|by destruct Hinv].
  revert Hrun.
  apply (run_ind (λ x, trail (QueryMessages log topics) x ∧
                       publishers x = publishers h0)).
  - intros e x x' [Ht Hp] Hs. split; [by eapply step_trail|].
    rewrite <- Hp. eapply step_publishers; [done|].
    intros msg rest Hpc. rewrite Hp, Htable; [done|].
    by eapply trail_next.
  - split; [|done].
    apply New_shape in Hnew as (_ & _ & _ & Hpc & Hem & _).
    unfold trail. by rewrite Hpc.
Qed.

(** X10: when every row of the log has its type recorded in the descriptor,
    the publishers table of a session is the one the constructor built, at
    every moment of the replay: the publication of a message finds its
    publisher and adds nothing to the table. *)
Theorem publishers_frozen (log : Log) (topics : gset string) (wait : Z)
    h0 diag sched h :
  rows_typed log →
  New log topics wait = Some (h0, diag) →
  run sched h0 = Some h →
  publishers h = publishers h0 ∧
  (∀ msg rest, pc h = PcPublish msg rest →
     publisher_at (publishers h) (Topic msg) (Type_ msg)
     = Some (Advertised (Topic msg) (Type_ msg))).
Proof.
  intros Htyped Hnew Hrun.
  pose proof (run_keeps_table log topics wait h0 diag sched h Htyped Hnew Hrun)
    as Hp.
  split; [done|].
  intros msg rest Hpc. rewrite Hp.
  apply (typed_rows_have_publishers log topics wait h0 diag Htyped Hnew).
  eapply trail_next; [|done]. by eapply New_trail.
Qed.

Lemma publishers_frozen_witness :
  rows_typed S2_log ∧
  publishers (S3_session 0) = publishers S2_session.
Proof.
  assert (Ht : rows_typed S2_log).
  { intros m Hm. exists {[".msg.foo" := 1]}.
    simpl in Hm. repeat (apply elem_of_cons in Hm as [->|Hm]);
      try (split; [reflexivity|exists 1; reflexivity]).
    by apply not_elem_of_nil in Hm. }
  split; [exact Ht|].
  apply (proj1 (publishers_frozen S2_log {["/foo"]} 0 S2_session
                  S2_construction_console
                  S3_schedule (S3_session 0) Ht S2_session_New
                  ltac:(vm_compute; reflexivity))).
Defined.

(** X11: the worker advertises nothing.  When the publication of a message
    finds no publisher for its topic and type, the table gets a
    default-constructed publisher for that pair, the message still counts
    as emitted, and no other entry of the table changes. *)
Theorem publication_without_publisher h (msg : Message) (rest : list Message) :
  pc h = PcPublish msg rest →
  publisher_at (publishers h) (Topic msg) (Type_ msg) = None →
  let h' := worker_step h in
  publisher_at (publishers h') (Topic msg) (Type_ msg) = Some NoPublisher ∧
  (∀ T τ, (T, τ) ≠ (Topic msg, Type_ msg) →
          publisher_at (publishers h') T τ = publisher_at (publishers h) T τ) ∧
  emitted h' = emitted h ++ [msg] ∧
  pc h' = PcLoop rest.
Proof.
  intros Hpc Hn. simpl. unfold worker_step. rewrite Hpc. simpl.
  split; [|split; [|done]].
  - rewrite index_publishers_absent by done. by rewrite decide_True.
  - intros T τ Hne. rewrite index_publishers_absent by done.
    rewrite decide_False; [done|]. intros [<- <-]. by apply Hne.
Qed.

Lemma publication_without_publisher_witness :
  publisher_at
    (publishers
       (worker_step
          (set_pc (PcPublish (foo_at 0) []) (Init S2_log))))
    "/foo" ".msg.foo"
  = Some NoPublisher.
Proof.
  exact (proj1 (publication_without_publisher
                  (set_pc (PcPublish (foo_at 0) []) (Init S2_log))
                  (foo_at 0) [] eq_refl eq_refl)).
Defined.

End table_frozen.

(** ** Stopping and running to the end *)

Section stopping.

Import PlaybackHandle.

Implicit Types (h : Implementation) (e : Event) (sched : list Event).

Lemma step_stop_stays e h h' :
  stop h = true → step e h = Some h' → stop h' = true.
Proof.
  intros Hst. destruct e; simpl.
  - intros [= <-]. unfold worker_step.
    destruct (pc h) as [|b|[|m r]|m r|m r| | | |]; simpl; try done.
    + by rewrite Hst.
    + by destruct (wait_is_over m h).
  - destruct (0 <=? d); [|done]. by intros [= <-].
  - intros [= <-]. unfold Stop_enter.
    destruct (negb _); [done|]. by destruct (joinable _).
  - destruct (joining h); [done|]. destruct (pc h); try done.
    by intros [= <-].
  - intros [= <-]. unfold WaitUntilFinished_enter. by destruct (_ && _).
  - destruct (waiting h); [done|]. destruct (finished h); [|done].
    by intros [= <-].
Qed.

Lemma stopped_emits_at_most_one sched h h' :
  stop h = true →
  run sched h = Some h' →
  stop h' = true ∧
  ∃ l, emitted h' = emitted h ++ l ∧ (length l ≤ 1)%nat ∧
       (committed (pc h) = false → l = []).
Proof.
  intros Hst Hrun.
  assert (Hinv : stop h' = true ∧
            ((committed (pc h') = true ∧ committed (pc h) = true ∧
              emitted h' = emitted h) ∨
             (committed (pc h') = false ∧
              ∃ l, emitted h' = emitted h ++ l ∧ (length l ≤ 1)%nat ∧
                   (committed (pc h) = false → l = [])))).
  { revert Hrun.
    apply (run_ind (λ x, stop x = true ∧
            ((committed (pc x) = true ∧ committed (pc h) = true ∧
              emitted x = emitted h) ∨
             (committed (pc x) = false ∧
              ∃ l, emitted x = emitted h ++ l ∧ (length l ≤ 1)%nat ∧
                   (committed (pc h) = false → l = []))))).
    - intros e x x' [Hsx Hc] Hs. split; [by eapply step_stop_stays|].
      destruct e;
        try (match type of Hs with
             | step ?e' _ = _ =>
                 destruct (step_other_pc e' x x' ltac:(done) Hs)
                   as (Hp & He & _)
             end; by rewrite Hp, He).
      injection Hs as <-. unfold worker_step.
      destruct (pc x) as [|b|[|m r]|m r|m r| | | |] eqn:Hpx;
        cbn [committed] in Hc.
      + rewrite Hpx. by cbn [committed].
      + cbn [pc set_pc emitted set_startTime set_publishedFirstMessage
             committed].
        destruct Hc as [[? _]|Hc]; [done|by right].
      + cbn [pc set_pc emitted committed].
        destruct Hc as [[? _]|Hc]; [done|by right].
      + rewrite Hsx. cbn [pc set_pc emitted committed].
        destruct Hc as [[? _]|Hc]; [done|by right].
      + destruct Hc as [(_ & Hh & He)|[? _]]; [|done].
        destruct (wait_is_over m x);
          [cbn [pc set_pc emitted committed]|rewrite Hpx; cbn [committed]];
          left; done.
      + destruct Hc as [(_ & Hh & He)|[? _]]; [|done].
        cbn [pc set_pc emitted set_emitted committed].
        right. split; [done|]. exists [m]. rewrite He.
        split; [done|]. split; [simpl; lia|]. intros Hn. congruence.
      + cbn [pc set_pc emitted set_finished committed].
        destruct Hc as [[? _]|Hc]; [done|by right].
      + cbn [pc set_pc emitted set_stop committed].
        destruct Hc as [[? _]|Hc]; [done|by right].
      + cbn [pc set_pc emitted committed].
        destruct Hc as [[? _]|Hc]; [done|by right].
      + rewrite Hpx. cbn [committed].
        destruct Hc as [[? _]|Hc]; [done|by right].
    - split; [done|]. destruct (committed (pc h)) eqn:Hc; [by left|].
      right. split; [done|]. exists []. rewrite app_nil_r.
      split; [done|]. split; [simpl; lia|done]. }
  destruct Hinv as [Hs [(_ & Hc & He)|(_ & l & He & Hl & Hn)]].
  - split; [done|]. exists []. rewrite app_nil_r. split; [done|].
    split; [simpl; lia|]. intros Hn. congruence.
  - split; [done|]. by exists l.
Qed.

Lemma worker_step_stopped h :
  stop h = true → pc h ≠ PcNone →
  stop (worker_step h) = true ∧ pc (worker_step h) ≠ PcNone ∧
  steps_to_end (pc (worker_step h)) = pred (steps_to_end (pc h)).
Proof.
  intros Hst Hpc. unfold worker_step.
  destruct (pc h) as [|b|[|m r]|m r|m r| | | |] eqn:Hpx; try done;
    unfold wait_is_over, FinishedWaiting; rewrite ?Hst, ?orb_true_r; cbn;
    rewrite ?Hpx, ?Hst; done.
Qed.

Lemma worker_steps_stopped sched (n : nat) h h' :
  stop h = true → pc h ≠ PcNone →
  (steps_to_end (pc h) ≤ n)%nat →
  (n ≤ worker_steps sched)%nat →
  run sched h = Some h' →
  pc h' = PcDone.
Proof.
  revert n h. induction sched as [|e sched IH]; intros n h Hst Hpc Hn Hw.
  - intros [= <-]. simpl in Hw.
    destruct (pc h); simpl in Hn; try lia; done.
  - simpl. destruct (step e h) as [h1|] eqn:Hs; [|done].
    pose proof (step_stop_stays e h h1 Hst Hs) as Hst1.
    destruct e;
      try (match type of Hs with
           | step ?e' _ = _ =>
               destruct (step_other_pc e' h h1 ltac:(done) Hs) as (Hp & _)
           end; apply (IH n); [done| |by rewrite Hp|exact Hw]; by rewrite Hp).
    injection Hs as <-.
    destruct (worker_step_stopped h Hst Hpc) as (_ & Hpc1 & Hd).
    apply (IH (pred n)); [done|done|lia|simpl in Hw; lia].
Qed.

(** X12: once [stop] is set on a session that [Start] issued, no more than
    six actions of the worker remain before it has ended, wherever it stood
    in the batch: in every schedule in which the worker takes six steps or
    more after that, it is at its end, [finished] and [stop] are true, and
    at most one message has been emitted on the way.  (How soon the worker
    takes those steps is another matter: blocked in the timed wait, it takes
    the first one when it is woken.) *)
Theorem stop_leaves_six_steps h0 sched0 h sched h' :
  issued h0 →
  run sched0 h0 = Some h →
  stop h = true →
  run sched h = Some h' →
  (6 ≤ worker_steps sched)%nat →
  pc h' = PcDone ∧ Finished h' = true ∧ stop h' = true ∧
  ∃ l, emitted h' = emitted h ++ l ∧ (length l ≤ 1)%nat.
Proof.
  intros Hi Hrun0 Hst Hrun Hsix.
  pose proof (run_inv sched0 h0 h (issued_inv h0 Hi) Hrun0) as Hinv.
  assert (Hend : pc h' = PcDone).
  { apply (worker_steps_stopped sched 6 h h'); try done.
    - by destruct Hinv as (_ & Hpc & _).
    - destruct (pc h); simpl; lia. }
  split; [done|].
  pose proof (run_inv _ h h' Hinv Hrun) as (_ & _ & Hf & _).
  rewrite Hend in Hf.
  destruct (stopped_emits_at_most_one _ h h' Hst Hrun)
    as (Hst' & l & He & Hl & _).
  split; [done|]. split; [done|]. by exists l.
Qed.

Lemma stop_leaves_six_steps_witness :
  run (drop 11 S3_schedule) S3_stopped_in_wait = Some (S3_session 0) ∧
  pc (S3_session 0) = PcDone ∧ Finished (S3_session 0) = true.
Proof.
  assert (Hrun : run (drop 11 S3_schedule) S3_stopped_in_wait
                 = Some (S3_session 0)) by (vm_compute; reflexivity).
  split; [exact Hrun|].
  destruct (stop_leaves_six_steps S2_session (take 11 S3_schedule)
              S3_stopped_in_wait (drop 11 S3_schedule) (S3_session 0)
              S2_session_issued ltac:(vm_compute; reflexivity) eq_refl Hrun
              ltac:(vm_compute; lia))
    as (Hpc & Hfin & _).
  split; [exact Hpc|exact Hfin].
Defined.

(** X13: in every schedule, once [stop] is set it stays set and the worker
    emits at most one further message, and none at all unless it had
    already taken a message from the batch (it was in the timed wait or about
    to publish) when [stop] was set. *)
Theorem stop_bounds_emission sched h h' :
  stop h = true →
  run sched h = Some h' →
  stop h' = true ∧
  ∃ l, emitted h' = emitted h ++ l ∧ (length l ≤ 1)%nat ∧
       (committed (pc h) = false → l = []).
Proof. apply stopped_emits_at_most_one. Qed.

Lemma stop_bounds_emission_witness :
  ∃ l, emitted (S3_session 0) = emitted S3_stopped_in_wait ++ l ∧
       (length l ≤ 1)%nat.
Proof.
  destruct (stop_bounds_emission (drop 11 S3_schedule) S3_stopped_in_wait
              (S3_session 0) eq_refl ltac:(vm_compute; reflexivity))
    as (_ & l & He & Hl & _).
  exists l. split; [exact He|exact Hl].
Defined.

End stopping.

Section int64_facts.

Import PlaybackHandle.

Lemma int64_range (z : Z) : - 2 ^ 63 ≤ int64 z < 2 ^ 63.
Proof.
  unfold int64. pose proof (Z.mod_pos_bound (z + 2 ^ 63) (2 ^ 64)). lia.
Qed.


Lemma int64_add_r (a b : Z) : int64 (a + int64 b) = int64 (a + b).
Proof.
  unfold int64.
  replace (a + ((b + 2 ^ 63) mod 2 ^ 64 - 2 ^ 63) + 2 ^ 63)
    with (a + (b + 2 ^ 63) mod 2 ^ 64) by lia.
  rewrite Zplus_mod_idemp_r. by replace (a + (b + 2 ^ 63)) with (a + b + 2 ^ 63) by lia.
Qed.

Lemma int64_sub (a b : Z) : int64 (int64 a - int64 b) = int64 (a - b).
Proof.
  unfold int64.
  replace ((a + 2 ^ 63) mod 2 ^ 64 - 2 ^ 63 - ((b + 2 ^ 63) mod 2 ^ 64 - 2 ^ 63)
           + 2 ^ 63)
    with (((a + 2 ^ 63) mod 2 ^ 64 - (b + 2 ^ 63) mod 2 ^ 64) + 2 ^ 63) by lia.
  rewrite <- Zplus_mod_idemp_l, <- Zminus_mod, Zplus_mod_idemp_l.
  by replace (a + 2 ^ 63 - (b + 2 ^ 63) + 2 ^ 63) with (a - b + 2 ^ 63) by lia.
Qed.

(** The deadline of the timed wait is [startTime] plus the distance of the
    message from the first one, as a 64-bit count, whatever the clock shows
    when [wait_for] is called. *)
Lemma wait_deadline_eq (msg : Message) (h : Implementation) :
  wait_deadline msg h
  = int64 (startTime h + (TimeReceived msg - firstMsgTime h)).
Proof.
  unfold wait_deadline. rewrite int64_sub, int64_add_r. f_equal. lia.
Qed.

End int64_facts.

Section full_replay.

Import PlaybackHandle.

Implicit Types (h : Implementation) (e : Event) (sched : list Event).

Lemma step_unstopped batch e h h' :
  is_stop e = false → unstopped batch h → step e h = Some h' →
  unstopped batch h'.
Proof.
  intros He Hu. destruct e; try done; simpl.
  - intros [= <-]. revert Hu. unfold unstopped, worker_step.
    destruct (pc h) as [|b|[|m r]|m r|m r| | | |] eqn:Hpx; try done;
      first
        [ by (cbn; intros (-> & -> & ?))
        | by (cbn; intros [<- Hst]; rewrite ?app_nil_r, <- ?app_assoc)
        | by (intros [Hb Hst]; rewrite Hst;
              destruct (publishedFirstMessage h); cbn)
        | by (intros [Hb Hst]; destruct (wait_is_over m h);
              [cbn|rewrite Hpx])
        | by (cbn; intros [-> ?])
        | by (cbn; intros ->)
        | by rewrite Hpx ].
  - destruct (0 <=? d); [|done]. by intros [= <-].
  - destruct (joining h); [done|]. destruct (pc h) eqn:Hpx; try done.
    intros [= <-]. revert Hu. unfold unstopped. cbn. by rewrite Hpx.
  - intros [= <-]. unfold WaitUntilFinished_enter. by destruct (_ && _).
  - destruct (waiting h); [done|]. destruct (finished h); [|done].
    by intros [= <-].
Qed.

Lemma StartPlayback_unstopped batch h :
  emitted h = [] → unstopped batch (StartPlayback batch h).
Proof. intros Hem. unfold unstopped. by cbn. Qed.

(** X14: a session that nobody stops emits the whole batch: when its worker
    has come to its end without [Stop] having been called, the messages
    emitted are those of the batch, all of them and in the order of the
    batch. *)
Theorem unstopped_replays_all (batch : list Message) h sched h' :
  emitted h = [] →
  forallb (λ e, negb (is_stop e)) sched = true →
  run sched (StartPlayback batch h) = Some h' →
  pc h' = PcDone →
  emitted h' = batch.
Proof.
  intros Hem Hns Hrun Hend.
  assert (Hu : unstopped batch h').
  { revert Hns Hrun. generalize (StartPlayback_unstopped batch h Hem).
    generalize (StartPlayback batch h). clear Hem Hend. intros x Hx.
    revert x Hx. induction sched as [|e sched IH]; intros x Hx; simpl.
    - by intros _ [= <-].
    - intros [He Hns]%andb_prop. destruct (step e x) as [x1|] eqn:Hs; [|done].
      apply IH; [|done]. eapply step_unstopped; [|done|done].
      by destruct (is_stop e). }
  unfold unstopped in Hu. by rewrite Hend in Hu.
Qed.

Lemma run_worker sched h : run (EvWorker :: sched) h = run sched (worker_step h).
Proof. done. Qed.

Lemma run_tick (d : Z) sched h :
  0 ≤ d → run (EvTick d :: sched) h = run sched (set_clock (clock h + d) h).
Proof.
  intros Hd. simpl. destruct (0 <=? d) eqn:Hle; [done|].
  apply Z.leb_gt in Hle. lia.
Qed.

Lemma worker_exits h :
  pc h = PcLoop [] →
  ∃ h', run [EvWorker; EvWorker; EvWorker; EvWorker] h = Some h' ∧
        pc h' = PcDone ∧ emitted h' = emitted h ∧
        finished h' = true ∧ stop h' = true.
Proof.
  intros Hpc.
  assert (E1 : worker_step h = set_pc PcSetFinished h)
    by (unfold worker_step; by rewrite Hpc).
  assert (E2 : ∀ x, pc x = PcSetFinished →
                    worker_step x = set_pc PcSetStop (set_finished true x))
    by (intros x Hx; unfold worker_step; by rewrite Hx).
  assert (E3 : ∀ x, pc x = PcSetStop →
                    worker_step x = set_pc PcNotify (set_stop true x))
    by (intros x Hx; unfold worker_step; by rewrite Hx).
  assert (E4 : ∀ x, pc x = PcNotify → worker_step x = set_pc PcDone x)
    by (intros x Hx; unfold worker_step; by rewrite Hx).
  eexists. rewrite run_worker, E1, run_worker, E2 by done.
  rewrite run_worker, E3 by done. rewrite run_worker, E4 by done.
  split; [reflexivity|]. by cbn.
Qed.

Lemma replay_from_loop (rest : list Message) h :
  pc h = PcLoop rest → stop h = false →
  ∃ sched h',
    worker_and_clock_only sched ∧
    run sched h = Some h' ∧ pc h' = PcDone ∧
    emitted h' = emitted h ++ rest ∧
    finished h' = true ∧ stop h' = true.
Proof.
  revert h. induction rest as [|m rest IH]; intros h Hpc Hst.
  - destruct (worker_exits h Hpc) as (h' & Hrun & Hend & Hem & Hf & Hs).
    exists [EvWorker; EvWorker; EvWorker; EvWorker], h'.
    rewrite app_nil_r. split; [|done].
    intros e He. left. repeat (apply elem_of_cons in He as [->|He]; [done|]).
    by apply not_elem_of_nil in He.
  - destruct (publishedFirstMessage h) eqn:Hpf.
    + (* through the timed wait *)
      set (d := Z.max 0 (int64 (startTime h
                                + (TimeReceived m - firstMsgTime h))
                         - clock h)).
      set (h1 := set_pc (PcWait m rest) h).
      set (h2 := set_clock (clock h1 + d) h1).
      set (h3 := set_pc (PcPublish m rest) h2).
      assert (H1 : worker_step h = h1).
      { unfold worker_step. by rewrite Hpc, Hst, Hpf. }
      assert (H3 : worker_step h2 = h3).
      { unfold worker_step. cbn [pc h2 h1 set_clock set_pc].
        assert (Hfw : wait_is_over m h2 = true); [|by rewrite Hfw].
        unfold wait_is_over. apply orb_true_intro. right.
        unfold wait_timed_out. apply Z.leb_le.
        rewrite wait_deadline_eq. cbn. unfold d. lia. }
      destruct (IH (worker_step h3)) as (sched & h' & Hok & Hrun & Hend & Hem & Hf & Hs).
      { unfold worker_step. by cbn. }
      { unfold worker_step. cbn. exact Hst. }
      exists (EvWorker :: EvTick d :: EvWorker :: EvWorker :: sched), h'.
      split.
      { intros e He.
        apply elem_of_cons in He as [->|He]; [by left|].
        apply elem_of_cons in He as [->|He]; [right; by eexists|].
        apply elem_of_cons in He as [->|He]; [by left|].
        apply elem_of_cons in He as [->|He]; [by left|]. by apply Hok. }
      rewrite run_worker, H1, run_tick by (unfold d; lia).
      fold h2. rewrite run_worker, H3, run_worker.
      split; [exact Hrun|]. split; [done|]. split; [|done].
      rewrite Hem. unfold worker_step. cbn. by rewrite <- app_assoc.
    + (* the first message *)
      set (h1 := set_pc (PcPublish m rest)
                   (set_firstMsgTime (TimeReceived m)
                      (set_publishedFirstMessage true h))).
      assert (H1 : worker_step h = h1).
      { unfold worker_step. by rewrite Hpc, Hst, Hpf. }
      destruct (IH (worker_step h1)) as (sched & h' & Hok & Hrun & Hend & Hem & Hf & Hs).
      { unfold worker_step. by cbn. }
      { unfold worker_step. cbn. exact Hst. }
      exists (EvWorker :: EvWorker :: sched), h'. split.
      { intros e He.
        apply elem_of_cons in He as [->|He]; [by left|].
        apply elem_of_cons in He as [->|He]; [by left|]. by apply Hok. }
      rewrite run_worker, H1, run_worker.
      split; [exact Hrun|]. split; [done|]. split; [|done].
      rewrite Hem. unfold worker_step. cbn. by rewrite <- app_assoc.
Qed.

(** X15: the replay can always be completed: from the state in which
    [StartPlayback] leaves a session there is a schedule made of steps of
    the worker and of the passing of time alone, after which the worker has
    ended, every message of the batch has been emitted in order, and
    [finished] and [stop] are true. *)
Theorem replay_completes (batch : list Message) h :
  emitted h = [] →
  ∃ sched h',
    worker_and_clock_only sched ∧
    run sched (StartPlayback batch h) = Some h' ∧
    pc h' = PcDone ∧ emitted h' = batch ∧
    Finished h' = true ∧ stop h' = true.
Proof.
  intros Hem.
  destruct (replay_from_loop batch (worker_step (StartPlayback batch h)))
    as (sched & h' & Hok & Hrun & Hend & Hem' & Hf & Hs).
  { unfold worker_step. by cbn. }
  { unfold worker_step. by cbn. }
  exists (EvWorker :: sched), h'. split.
  { intros e He. apply elem_of_cons in He as [->|He]; [by left|by apply Hok]. }
  rewrite run_worker. split; [done|]. split; [done|]. split; [|done].
  rewrite Hem'. unfold worker_step. cbn. by rewrite Hem.
Qed.

Lemma replay_completes_witness :
  ∃ sched h',
    worker_and_clock_only sched ∧
    run sched (StartPlayback (Rows S2_log) (Init S2_log)) = Some h' ∧
    pc h' = PcDone ∧ emitted h' = Rows S2_log.
Proof.
  destruct (replay_completes (Rows S2_log) (Init S2_log) eq_refl)
    as (sched & h' & Hok & Hrun & Hend & Hem & _).
  exists sched, h'. split; [exact Hok|]. split; [exact Hrun|].
  split; [exact Hend|exact Hem].
Defined.

End full_replay.

(** ** The timing of publications *)

Section timing.

Import PlaybackHandle.

Implicit Types (h : Implementation) (e : Event) (sched : list Event).

(** Events other than the worker's leave the worker's locals, let the clock
    go forward only, and do not clear [stop]. *)
Lemma step_other_locals e h h' :
  e ≠ EvWorker → step e h = Some h' →
  pc h' = pc h ∧ emitted h' = emitted h ∧
  startTime h' = startTime h ∧ firstMsgTime h' = firstMsgTime h ∧
  publishedFirstMessage h' = publishedFirstMessage h ∧
  clock h ≤ clock h' ∧ (stop h = true → stop h' = true).
Proof.
  intros He. destruct e; simpl; try done.
  - destruct (0 <=? d) eqn:Hd; [|done]. intros [= <-]. cbn.
    apply Z.leb_le in Hd. repeat split; try done. lia.
  - intros [= <-]. unfold Stop_enter.
    destruct (negb _); [done|]. by destruct (joinable _).
  - destruct (joining h); [done|]. destruct (pc h) eqn:Hpc; try done.
    intros [= <-]. cbn. by rewrite Hpc.
  - intros [= <-]. unfold WaitUntilFinished_enter. by destruct (_ && _).
  - destruct (waiting h); [done|]. destruct (finished h) eqn:Hf; [|done].
    by intros [= <-].
Qed.





(** X19: where the 64-bit arithmetic of the timed wait overflows, the wait is
    over at once and the message is published early.  That is so when the
    distance of the message from the first one is 2^63 ns or more (the
    target comes out negative), and when that distance added to [startTime]
    is 2^63 or more (the deadline of [wait_for] comes out in the past):
    the next step of the worker goes on to the publication although less
    time has passed than lies between the two messages. *)
Theorem overflow_publishes_at_once h (msg : Message) (rest : list Message) :
  pc h = PcWait msg rest →
  0 ≤ startTime h ≤ clock h →
  clock h < 2 ^ 63 →
  0 ≤ TimeReceived msg - firstMsgTime h < 2 ^ 64 →
  2 ^ 63 ≤ startTime h + (TimeReceived msg - firstMsgTime h) < 2 ^ 64 →
  pc (worker_step h) = PcPublish msg rest ∧
  clock h - startTime h < TimeReceived msg - firstMsgTime h.
Proof.
  intros Hpc HsT Hck Hd Hov. split; [|lia].
  unfold worker_step. rewrite Hpc.
  assert (Hover : wait_is_over msg h = true); [|by rewrite Hover].
  unfold wait_is_over. apply orb_true_intro. right.
  unfold wait_timed_out. apply Z.leb_le. rewrite wait_deadline_eq.
  unfold int64.
  replace (startTime h + (TimeReceived msg - firstMsgTime h) + 2 ^ 63)
    with ((startTime h + (TimeReceived msg - firstMsgTime h) - 2 ^ 63)
          + 1 * 2 ^ 64) by lia.
  rewrite Z_mod_plus_full, Z.mod_small by lia. lia.
Qed.

Lemma overflow_publishes_at_once_witness :
  pc (worker_step
        (set_pc (PcWait (mkMessage "/foo" ".msg.foo" (2 ^ 63 - 1) "") [])
           (set_clock 1000 (set_startTime 1000 (Init S2_log)))))
  = PcPublish (mkMessage "/foo" ".msg.foo" (2 ^ 63 - 1) "") [].
Proof.
  refine (proj1 (overflow_publishes_at_once
                   (set_pc (PcWait (mkMessage "/foo" ".msg.foo" (2 ^ 63 - 1) "") [])
                      (set_clock 1000 (set_startTime 1000 (Init S2_log))))
                   (mkMessage "/foo" ".msg.foo" (2 ^ 63 - 1) "") []
                   eq_refl _ _ _ _)); cbn; lia.
Defined.

End timing.

(** ** Calls on a session that has been joined, and what [Start] plays *)

Section after_join.

Import PlaybackHandle.

Implicit Types (h : Implementation) (e : Event) (sched : list Event).

Lemma step_stop_at_end e h h' :
  (pc h = PcNotify ∨ pc h = PcDone → stop h = true) →
  step e h = Some h' →
  (pc h' = PcNotify ∨ pc h' = PcDone → stop h' = true).
Proof.
  intros Hinv Hs.
  destruct e;
    try (match type of Hs with
         | step ?e' _ = _ =>
             destruct (step_other_locals e' h h' ltac:(done) Hs)
               as (Hp & _ & _ & _ & _ & _ & Hst)
         end; rewrite Hp; intros Hpc; by apply Hst, Hinv).
  injection Hs as <-. revert Hinv. unfold worker_step.
  destruct (pc h) as [|b|[|m r]|m r|m r| | | |] eqn:Hpx;
    repeat match goal with
           | |- context [if ?c then _ else _] => destruct c
           end;
    cbn; rewrite ?Hpx;
    first [ by intros _ [?|?]
          | by (intros H _; apply H; right)
          | by (intros H _; apply H; left)
          | by intros ].
Qed.

(** X17: once [Stop] has joined the worker of a session that [Start]
    issued, the session is at rest: [Finished()] is true, and a further
    [Stop], a [WaitUntilFinished] and a step of the worker each return at
    once and change nothing. *)
Theorem joined_session_is_at_rest h0 sched h :
  issued h0 →
  run sched h0 = Some h →
  joined h = true →
  Finished h = true ∧
  step EvStop h = Some h ∧ Stop_returns EvStop h = true ∧
  step EvWaitUntilFinished h = Some h ∧
  WaitUntilFinished_returns EvWaitUntilFinished h = true ∧
  step EvWorker h = Some h.
Proof.
  intros Hi Hrun Hj.
  destruct (run_inv sched h0 h (issued_inv h0 Hi) Hrun)
    as (Hv & _ & Hf & Hjd & _).
  specialize (Hjd Hj).
  assert (Hst : stop h = true).
  { assert (Hend : pc h = PcNotify ∨ pc h = PcDone → stop h = true);
      [|apply Hend; by right].
    revert Hrun. apply (run_ind (λ x, pc x = PcNotify ∨ pc x = PcDone →
                                      stop x = true)).
    - intros e x x' Hx Hs. by eapply step_stop_at_end.
    - apply issued_inv in Hi as Hinv.
      destruct Hi as (log & topics & wait & diag & _ & Hn).
      apply New_shape in Hn as (_ & _ & _ & Hpc & _).
      rewrite Hpc. intros [?|?]; done. }
  rewrite Hjd in Hf. simpl in Hf.
  destruct h as [pubs st fin lf p jd sT fT pF ck em jg wt]. cbn in *.
  subst. unfold Stop_enter, WaitUntilFinished_enter, joinable, worker_step.
  cbn. rewrite Hv. cbn. done.
Qed.

Lemma joined_session_is_at_rest_witness :
  step EvStop (S3_session 0) = Some (S3_session 0) ∧
  Finished (S3_session 0) = true.
Proof.
  destruct (joined_session_is_at_rest S2_session S3_schedule (S3_session 0)
              S2_session_issued ltac:(vm_compute; reflexivity) eq_refl)
    as (Hf & Hs & _).
  split; [exact Hs|exact Hf].
Defined.

End after_join.

Section start_plays_selection.

Import Playback.

Implicit Types (p : Implementation).

Lemma apply_ops_unused_empty (log : Log) (ops : list SelectorOp) :
  addTopicWasUsed (apply_ops ops (New log)) = false →
  topicNames (apply_ops ops (New log)) = ∅.
Proof.
  intros Hf. apply apply_ops_flag in Hf as [-> _]. done.
Qed.

(** X18: what [Start] plays is what the mutators selected: after every
    sequence of calls of the mutators on a new factory, the snapshot that
    [Start] takes is the selection, and the stored set is empty for as long
    as the flag is not set. *)
Theorem Start_topics_is_selection (log : Log) (ops : list SelectorOp) :
  let p := apply_ops ops (New log) in
  (Start_topics p).1 = selection p ∧
  (addTopicWasUsed p = false → topicNames p = ∅ ∧ ops = []) ∧
  selection p ⊆ descriptor_topics log.
Proof.
  simpl. unfold selection.
  pose proof (apply_ops_within ops (New log)) as Hw. simpl in Hw.
  specialize (Hw ltac:(set_solver)).
  rewrite apply_ops_logFile. simpl.
  destruct (addTopicWasUsed (apply_ops ops (New log))) eqn:Hf.
  - rewrite Start_topics_used by done. split; [done|]. split; [done|done].
  - rewrite Start_topics_unused by done. rewrite apply_ops_logFile. simpl.
    rewrite (apply_ops_unused_empty log ops Hf).
    split; [set_solver|]. split; [|set_solver].
    intros _. split; [done|]. by apply apply_ops_flag in Hf as [-> _].
Qed.

End start_plays_selection.

Section full_replay_witness.

Import PlaybackHandle.

Lemma unstopped_replays_all_witness :
  ∃ h', run S2_schedule (StartPlayback (Rows S2_log) (Init S2_log)) = Some h' ∧
        emitted h' = Rows S2_log.
Proof.
  destruct (run S2_schedule (StartPlayback (Rows S2_log) (Init S2_log)))
    as [h'|] eqn:Hrun; [|vm_compute in Hrun; discriminate Hrun].
  assert (Hpc : pc h' = PcDone).
  { vm_compute in Hrun. injection Hrun as <-. reflexivity. }
  exists h'. split; [reflexivity|].
  exact (unstopped_replays_all (Rows S2_log) (Init S2_log) S2_schedule h'
           eq_refl eq_refl Hrun Hpc).
Defined.

End full_replay_witness.

(** ** The snapshot of a session *)

Section snapshot_of_a_session.

Import PlaybackHandle.

Implicit Types (h : Implementation) (s : System).

(** No event of a session makes or unmakes an advertised publisher. *)
Lemma step_advertised e h h' (T τ : string) :
  step e h = Some h' →
  publisher_at (publishers h') T τ = Some (Advertised T τ) ↔
  publisher_at (publishers h) T τ = Some (Advertised T τ).
Proof.
  destruct e; simpl.
  - intros [= <-]. unfold worker_step.
    destruct (pc h) as [|b|[|m r]|m r|m r| | | |] eqn:Hpc; simpl; try done.
    + destruct (stop h); [done|]. by destruct (publishedFirstMessage h).
    + by destruct (wait_is_over m h).
    + destruct (publisher_at (publishers h) (Topic m) (Type_ m)) as [x|] eqn:Hp.
      * by rewrite index_publishers_present by eauto.
      * rewrite index_publishers_absent by done.
        destruct (decide (Topic m = T ∧ Type_ m = τ)) as [[<- <-]|Hne];
          [|done].
        rewrite Hp. split; intros; discriminate.
  - destruct (0 <=? d); [|done]. by intros [= <-].
  - intros [= <-]. unfold Stop_enter.
    destruct (negb _); [done|]. by destruct (joinable _).
  - destruct (joining h); [done|]. destruct (pc h); try done.
    by intros [= <-].
  - intros [= <-]. unfold WaitUntilFinished_enter. by destruct (_ && _).
  - destruct (waiting h); [done|]. destruct (finished h); [|done].
    by intros [= <-].
Qed.

Lemma run_advertised sched h h' (T τ : string) :
  run sched h = Some h' →
  publisher_at (publishers h') T τ = Some (Advertised T τ) ↔
  publisher_at (publishers h) T τ = Some (Advertised T τ).
Proof.
  revert h. induction sched as [|e sched IH]; intros h; simpl.
  - by intros [= <-].
  - destruct (step e h) as [h1|] eqn:Hs; [|done]. intros Hrun.
    rewrite (IH h1 Hrun). by apply (step_advertised e).
Qed.

(** While the handle at [a] has an owner, nothing but the events of its own
    session changes it: the mutators work on the members of the factory,
    [Start] builds its handle at an address of its own, and the events and
    drops of other handles touch those handles. *)
Lemma handle_follows_its_events (ts : bool) (acts : list Action) s s'
    (a : nat) h0 :
  handles (heap s) !! a = Some h0 →
  (a < nextHandle (heap s))%nat →
  alive_through a acts = true →
  act_all ts acts s = Some s' →
  ∃ h, run (events_at a acts) h0 = Some h ∧ handles (heap s') !! a = Some h.
Proof.
  revert s h0. induction acts as [|x acts IH]; intros s h0 Hh Hlt Hal; simpl.
  - intros [= <-]. by exists h0.
  - destruct (act ts x s) as [s1|] eqn:Hx; [|done]. intros Hrun.
    unfold alive_through in Hal. simpl in Hal.
    apply andb_prop in Hal as [Hx1 Hal].
    destruct x as [op|wait|b e|b]; simpl in Hx; simpl.
    + injection Hx as <-. by refine (IH _ h0 _ _ Hal Hrun).
    + destruct (Playback.Start ts wait (factory s) (heap s)) as [o|] eqn:Ho;
        [|done].
      simpl in Hx. injection Hx as <-.
      apply Start_cases in Ho as [(_ & Hp & _)|(h1 & warn & _ & _ & _ & _ & Hp)];
        refine (IH _ h0 _ _ Hal Hrun); rewrite Hp; simpl; try done.
      * rewrite lookup_insert_ne by lia. done.
      * lia.
    + destruct (handles (heap s) !! b) as [hb|] eqn:Hb; [|done]. simpl in Hx.
      destruct (step e hb) as [hb'|] eqn:Hs; [|done]. injection Hx as <-.
      destruct (decide (a = b)) as [<-|Hne].
      * assert (hb = h0) as -> by congruence. simpl. rewrite Hs.
        refine (IH _ hb' _ _ Hal Hrun); simpl; [|done].
        by rewrite lookup_insert_eq.
      * refine (IH _ h0 _ _ Hal Hrun); simpl; [|done].
        by rewrite lookup_insert_ne.
    + injection Hx as <-. simpl in Hx1.
      apply negb_true_iff, bool_decide_eq_false in Hx1.
      refine (IH _ h0 _ _ Hal Hrun); unfold release; simpl; [|done].
      by rewrite lookup_delete_ne.
Qed.

(** C7: the handle that [Start] issues is the one the constructor builds
    from the set of topics that [Start] takes from the selector at that
    moment.  Whatever the program does afterwards while the handle has an
    owner (mutators of the selector, further calls of [Start], events and
    drops of other handles, events of its own session), the handle is what
    the events of its own session make of the constructed one; the table
    holds an advertised publisher for a topic and a type exactly when the
    topic is in the snapshot and the descriptor records the type; when every
    row has its type recorded the table is the constructed one; and the
    messages emitted are a prefix of the query of the log for the snapshot,
    so every one of them has a topic of the snapshot.  The selector of the
    factory after [Start] appears nowhere in what the handle is. *)
Theorem snapshot_is_authoritative (ts : bool) (log : Log)
    (acts0 : list Action) (s0 : System) (wait : Z) o (a : nat)
    (acts : list Action) (s' : System) :
  act_all ts acts0 (boot log) = Some s0 →
  Playback.Start ts wait (factory s0) (heap s0) = Some o →
  ret o = Some a →
  alive_through a acts = true →
  act_all ts acts (mkSystem (post o).1 (post o).2 (ret o :: started s0))
  = Some s' →
  let snapshot := (Playback.Start_topics (factory s0)).1 in
  ∃ h0 diag h,
    New log snapshot wait = Some (h0, diag) ∧
    handles (post o).2 !! a = Some h0 ∧
    run (events_at a acts) h0 = Some h ∧
    handles (heap s') !! a = Some h ∧
    (∀ T τ, publisher_at (publishers h) T τ = Some (Advertised T τ) ↔
            T ∈ snapshot ∧ has_type log T τ) ∧
    (rows_typed log → publishers h = publishers h0) ∧
    emitted h `prefix_of` QueryMessages log snapshot ∧
    (∀ m, m ∈ emitted h → Topic m ∈ snapshot).
Proof.
  intros Hacts0 Ho Hret Hal Hacts snapshot.
  pose proof (act_all_ind ts (factory_inv log) (act_factory_inv ts log)
                acts0 (boot log) s0 (boot_factory_inv log) Hacts0)
    as (Hl & Hsub & Hkeys).
  apply Start_cases in Ho
    as [(Hr & _)|(h0 & diag & Hv & _ & Hnew & Hr & Hp)]; [congruence|].
  rewrite Hl in Hnew. fold snapshot in Hnew.
  assert (a = nextHandle (heap s0)) as -> by congruence.
  assert (Hh0 : handles (post o).2 !! nextHandle (heap s0) = Some h0).
  { rewrite Hp. simpl. by rewrite lookup_insert_eq. }
  destruct (handle_follows_its_events ts acts
              (mkSystem (post o).1 (post o).2 (ret o :: started s0)) s'
              (nextHandle (heap s0)) h0
              Hh0 ltac:(rewrite Hp; simpl; lia) Hal Hacts)
    as (h & Hrun & Hh).
  pose proof (New_trail log snapshot wait h0 diag _ h Hnew Hrun) as Ht.
  apply trail_prefix in Ht.
  exists h0, diag, h.
  split; [done|]. split; [done|]. split; [done|]. split; [done|].
  split; [|split; [|split; [done|]]].
  - intros T τ. rewrite (run_advertised _ h0 h T τ Hrun).
    rewrite (New_table log snapshot wait h0 diag Hnew T τ). naive_solver.
  - intros Htyped. by eapply run_keeps_table.
  - intros m Hm. destruct Ht as [tail Ht].
    assert (Hq : m ∈ QueryMessages log snapshot).
    { rewrite Ht. apply elem_of_app. by left. }
    by apply QueryMessages_elem in Hq as [_ ?].
Qed.

Lemma snapshot_is_authoritative_witness :
  ∃ s' h,
    act_all false mutations_while_running S6_one_live = Some s' ∧
    (Playback.Start_topics (factory s')).1 = ∅ ∧
    handles (heap s') !! 0%nat = Some h ∧
    run [EvWorker; EvWorker; EvWorker] S2_session = Some h ∧
    (∀ m, m ∈ emitted h → Topic m ∈ ({["/foo"]} : gset string)).
Proof.
  destruct (act_all false mutations_while_running S6_one_live)
    as [s'|] eqn:Hrun; [|exfalso; vm_compute in Hrun; discriminate Hrun].
  destruct (Playback.Start false 0 (factory (boot S2_log)) (heap (boot S2_log)))
    as [o|] eqn:Ho; [|exfalso; vm_compute in Ho; discriminate Ho].
  assert (Hret : ret o = Some 0%nat).
  { vm_compute in Ho. injection Ho as <-. reflexivity. }
  assert (Hsys : mkSystem (post o).1 (post o).2 (ret o :: started (boot S2_log))
                 = S6_one_live).
  { vm_compute in Ho. injection Ho as <-. vm_compute. reflexivity. }
  rewrite <- Hsys in Hrun.
  destruct (snapshot_is_authoritative false S2_log [] (boot S2_log) 0 o 0%nat
              mutations_while_running s' eq_refl Ho Hret eq_refl Hrun)
    as (h0 & diag & h & _ & Hh0 & Hrun0 & Hh & _ & _ & _ & Hin).
  assert (Hs : (post o).2 = heap S6_one_live) by (by rewrite <- Hsys).
  rewrite Hs in Hh0. injection Hh0 as <-.
  exists s', h. rewrite Hsys in Hrun.
  split; [reflexivity|]. split; [|split; [exact Hh|split; [exact Hrun0|exact Hin]]].
  vm_compute in Hrun. injection Hrun as <-. vm_compute. reflexivity.
Defined.

End snapshot_of_a_session.

(** ** The console of a construction *)

Section console_of_construction.

Import PlaybackHandle.

Implicit Types (h : Implementation).








End console_of_construction.
